(** * Clause segmentation of extracted document text

    A shallow embedding of [app/extract_clauses.py] ([clean_text],
    [split_into_clauses]) and of the line filter of
    [app/my_utils.py] ([extract_clauses_from_url]).

    Python strings are modelled as lists of characters over the code points
    U+0000 .. U+00FF (Rocq's [ascii], read as Latin-1): this range holds
    every character the source names, in particular the carriage return and
    the non-breaking space U+00A0.  The character classes below ([\s], [\d],
    [\w], upper and lower case) are Python 3's classes for [str] restricted
    to that range.

    The HuggingFace tokenizer is an external capability: the segmenter is
    written in a section over its two entry points, [tokenize] and
    [convert_tokens_to_string]. *)

From Stdlib Require Import Ascii String DecimalString DecimalNat.
From Stdlib Require Import List Arith Lia Bool FinFun.
Import ListNotations.

(** ** Characters and strings *)

Definition str := list ascii.

(** A Python literal. *)
Definition lit (s : string) : str := list_ascii_of_string s.

Definition SP : ascii := " "%char.
Definition LF : ascii := ascii_of_nat 10.
Definition CR : ascii := ascii_of_nat 13.
Definition NBSP : ascii := ascii_of_nat 160.

Definition code (c : ascii) : nat := nat_of_ascii c.

Definition in_range (lo hi : nat) (c : ascii) : bool :=
  (lo <=? code c) && (code c <=? hi).

(** [str.isspace] on one character, which is also the class [\s] of [re]
    for [str] patterns: TAB..CR, FS..US, SPACE, NEL and NBSP. *)
Definition isspace (c : ascii) : bool :=
  in_range 9 13 c || in_range 28 32 c || (code c =? 133) || (code c =? 160).

(** The class [\d]: the decimal digits (category Nd). *)
Definition isdecimal (c : ascii) : bool := in_range 48 57 c.

(** [str.isalpha] on one character (the letter categories). *)
Definition isalpha (c : ascii) : bool :=
  in_range 65 90 c || in_range 97 122 c
  || (code c =? 170) || (code c =? 181) || (code c =? 186)
  || in_range 192 214 c || in_range 216 246 c || in_range 248 255 c.

(** Characters with a numeric value: the digits, the superscripts
    one, two, three and the vulgar fractions. *)
Definition isnumeric (c : ascii) : bool :=
  isdecimal c || (code c =? 178) || (code c =? 179) || (code c =? 185)
  || in_range 188 190 c.

(** The class [\w]: alphanumeric characters and the underscore. *)
Definition isword (c : ascii) : bool :=
  isalpha c || isnumeric c || (code c =? 95).

(** Upper- and lower-case characters (property Uppercase / Lowercase). *)
Definition isupper_char (c : ascii) : bool :=
  in_range 65 90 c || in_range 192 214 c || in_range 216 222 c.

Definition islower_char (c : ascii) : bool :=
  in_range 97 122 c
  || (code c =? 170) || (code c =? 181) || (code c =? 186)
  || in_range 223 246 c || in_range 248 255 c.

(** [str.lower] on one character. *)
Definition lower_char (c : ascii) : ascii :=
  if isupper_char c then ascii_of_nat (code c + 32) else c.

(** ** The [str] methods the source calls *)

Definition is_nil {A} (l : list A) : bool :=
  match l with [] => true | _ => false end.

(** [s.lower()] *)
Definition lower (s : str) : str := map lower_char s.

(** [s.isupper()]: no lower-case character and at least one upper-case
    one. *)
Definition isupper (s : str) : bool :=
  forallb (fun c => negb (islower_char c)) s && existsb isupper_char s.

(** [s.replace(old, new)] for a one-character [old]. *)
Definition replace_char (old : ascii) (new : str) (s : str) : str :=
  flat_map (fun c => if Ascii.eqb c old then new else [c]) s.

(** [s.lstrip()], [s.rstrip()] and [s.strip()]. *)
Fixpoint lstrip (s : str) : str :=
  match s with
  | c :: s' => if isspace c then lstrip s' else s
  | [] => []
  end.

Fixpoint rstrip (s : str) : str :=
  match s with
  | c :: s' =>
      let r := rstrip s' in
      if isspace c && is_nil r then [] else c :: r
  | [] => []
  end.

Definition strip (s : str) : str := rstrip (lstrip s).

(** [s.split()]: the maximal runs of non-whitespace characters.  [cur] is
    the word being read, in reverse. *)
Fixpoint split_ws_from (cur : str) (s : str) : list str :=
  match s with
  | c :: s' =>
      if isspace c
      then (if is_nil cur then split_ws_from [] s'
            else rev cur :: split_ws_from [] s')
      else split_ws_from (c :: cur) s'
  | [] => if is_nil cur then [] else [rev cur]
  end.

Definition split_ws (s : str) : list str := split_ws_from [] s.

(** [s.split(sep)] for a one-character separator: empty pieces are kept. *)
Fixpoint split_on_from (sep : ascii) (cur : str) (s : str) : list str :=
  match s with
  | c :: s' =>
      if Ascii.eqb c sep then rev cur :: split_on_from sep [] s'
      else split_on_from sep (c :: cur) s'
  | [] => [rev cur]
  end.

Definition split_on (sep : ascii) (s : str) : list str :=
  split_on_from sep [] s.

(** [sep.join(parts)] *)
Fixpoint join (sep : str) (parts : list str) : str :=
  match parts with
  | [] => []
  | [p] => p
  | p :: ps => p ++ sep ++ join sep ps
  end.

Fixpoint starts_with (p s : str) : bool :=
  match p, s with
  | [], _ => true
  | a :: p', b :: s' => Ascii.eqb a b && starts_with p' s'
  | _ :: _, [] => false
  end.

(** [sub in s] *)
Fixpoint contains (sub s : str) : bool :=
  starts_with sub s ||
  match s with
  | _ :: s' => contains sub s'
  | [] => false
  end.

(** [s.replace(old, new)] for a non-empty [old]: leftmost occurrences,
    not overlapping.  [skip] counts the characters of the current
    occurrence still to be dropped. *)
Fixpoint replace_from (old new : str) (skip : nat) (s : str) : str :=
  match s with
  | c :: s' =>
      match skip with
      | S k => replace_from old new k s'
      | O =>
          if starts_with old s
          then new ++ replace_from old new (length old - 1) s'
          else c :: replace_from old new 0 s'
      end
  | [] => []
  end.

Definition replace (old new s : str) : str := replace_from old new 0 s.

(** [str(n)] for a natural number. *)
Definition str_of_nat (n : nat) : str :=
  lit (NilEmpty.string_of_uint (Nat.to_uint n)).

(** ** Regular expressions

    The patterns of the source are sequences of literals and of greedy
    repetitions of a character class.  A matcher takes the continuation
    that has to match the rest, and answers whether the pattern followed
    by the continuation matches at the head of the string, which is what
    [re.match] tests. *)

Definition matcher := (str -> bool) -> str -> bool.

Definition re_accept : str -> bool := fun _ => true.

(** [$]: at the end, or just before a newline that ends the string. *)
Definition re_eol : str -> bool :=
  fun s => match s with
           | [] => true
           | [c] => Ascii.eqb c LF
           | _ => false
           end.

Fixpoint re_lit (l : str) : matcher :=
  fun k s =>
    match l with
    | [] => k s
    | a :: l' =>
        match s with
        | b :: s' => Ascii.eqb a b && re_lit l' k s'
        | [] => false
        end
    end.

Definition allows_more (hi : option nat) : bool :=
  match hi with Some 0 => false | _ => true end.

(** [cls{lo,hi}], greedy, with backtracking; [hi = None] is unbounded. *)
Fixpoint re_rep (cls : ascii -> bool) (lo : nat) (hi : option nat)
         (k : str -> bool) (s : str) : bool :=
  match s with
  | c :: s' =>
      if cls c && allows_more hi
      then re_rep cls (pred lo) (option_map pred hi) k s'
           || ((lo =? 0) && k s)
      else (lo =? 0) && k s
  | [] => (lo =? 0) && k s
  end.

Definition re_alt (m1 m2 : matcher) : matcher :=
  fun k s => m1 k s || m2 k s.

(** [re.sub(r'\s+', ' ', s)]: every maximal run of whitespace becomes one
    space.  [in_run] says that the previous character was whitespace. *)
Fixpoint re_sub_ws_from (in_run : bool) (s : str) : str :=
  match s with
  | c :: s' =>
      if isspace c
      then (if in_run then re_sub_ws_from true s'
            else SP :: re_sub_ws_from true s')
      else c :: re_sub_ws_from false s'
  | [] => []
  end.

Definition re_sub_ws (s : str) : str := re_sub_ws_from false s.

(** [re.split(r'(?<=[.!?]) +', s)]: a separator is a maximal run of spaces
    whose first space follows one of [.], [!], [?]. *)
Definition is_terminator (c : ascii) : bool :=
  Ascii.eqb c "."%char || Ascii.eqb c "!"%char || Ascii.eqb c "?"%char.

Inductive split_mode :=
| Scanning (after_terminator : bool)
| InSeparator.

Fixpoint re_split_sentences_from (m : split_mode) (cur : str) (s : str)
  : list str :=
  match s with
  | c :: s' =>
      match m with
      | InSeparator =>
          if Ascii.eqb c SP then re_split_sentences_from InSeparator [] s'
          else re_split_sentences_from (Scanning (is_terminator c)) [c] s'
      | Scanning after =>
          if Ascii.eqb c SP && after
          then rev cur :: re_split_sentences_from InSeparator [] s'
          else re_split_sentences_from (Scanning (is_terminator c))
                 (c :: cur) s'
      end
  | [] => [rev cur]
  end.

Definition re_split_sentences (s : str) : list str :=
  re_split_sentences_from (Scanning false) [] s.

(** ** [clean_text] *)

Definition clean_text (text : str) : str :=
  strip (replace_char NBSP [SP] (re_sub_ws text)).

(** ** Clause records: the dictionaries with keys [clause] and [id] *)

Record clause_record := mk_clause_record { clause : str; id : str }.

(** ** The patterns of [split_into_clauses] *)

(** [^(Section\s+\d+|[0-9.]{1,5}\s+[\w ]{3,})] *)
Definition header_pattern : matcher :=
  re_alt
    (fun k => re_lit (lit "Section")
                (re_rep isspace 1 None (re_rep isdecimal 1 None k)))
    (fun k => re_rep (fun c => in_range 48 57 c || Ascii.eqb c "."%char)
                1 (Some 5)
                (re_rep isspace 1 None
                   (re_rep (fun c => isword c || Ascii.eqb c SP) 3 None k))).

(** [header_pattern.match(s)] as a truth value. *)
Definition header_match (s : str) : bool := header_pattern re_accept s.

(** [^page\s*\d+] *)
Definition page_pattern : matcher :=
  fun k => re_lit (lit "page")
             (re_rep isspace 0 None (re_rep isdecimal 1 None k)).

(** [^\d{1,3}$] *)
Definition number_pattern : str -> bool :=
  re_rep isdecimal 1 (Some 3) re_eol.

(** The five tests that make the filtering loop [continue]. *)
Definition is_noise (block_clean : str) : bool :=
  (length block_clean <? 25)
  || (isupper block_clean && (length (split_ws block_clean) <? 5))
  || page_pattern re_accept (lower block_clean)
  || number_pattern block_clean
  || contains (lit "table of contents") (lower block_clean).

(** [range(0, stop, step)] and [l[i:j]]. *)
Definition py_range (stop step : nat) : list nat :=
  map (fun k => k * step) (seq 0 ((stop + step - 1) / step)).

Definition slice {A} (l : list A) (i j : nat) : list A :=
  firstn (j - i) (skipn i l).

(** The token limit written in the source. *)
Definition MAX_TOKENS : nat := 512.

(** [final.append({"clause": text, "id": f"clause_{len(final)+1}"})] *)
Definition clause_id (n : nat) : str := lit "clause_" ++ str_of_nat n.

Definition append_record (final : list clause_record) (text : str)
  : list clause_record :=
  final ++ [{| clause := text; id := clause_id (length final + 1) |}].

(** ** [split_into_clauses] *)

Section Segmenter.

(** [tokenizer.tokenize] and [tokenizer.convert_tokens_to_string]. *)
Variable tokenize : str -> list str.
Variable convert_tokens_to_string : list str -> str.

(** The sentence loop; the state is [(buffer, blocks)]. *)
Definition accumulate_step (st : str * list str) (sentence : str)
  : str * list str :=
  let (buffer, blocks) := st in
  let candidate :=
    if is_nil buffer then sentence else buffer ++ [SP] ++ sentence in
  if length (tokenize candidate) <=? MAX_TOKENS
  then (candidate, blocks)
  else (sentence,
        if is_nil buffer then blocks else blocks ++ [strip buffer]).

Definition accumulate_blocks (sentences : list str) : list str :=
  let (buffer, blocks) := fold_left accumulate_step sentences ([], []) in
  if is_nil buffer then blocks else blocks ++ [strip buffer].

(** The header loop; the state is [(current_header, combined_blocks)]. *)
Definition header_step (st : str * list str) (block : str)
  : str * list str :=
  let (current_header, combined_blocks) := st in
  if header_match (strip block)
  then (strip block, combined_blocks)
  else ([],
        combined_blocks ++
          [if is_nil current_header then strip block
           else current_header ++ [LF] ++ strip block]).

Definition combine_blocks (blocks : list str) : list str :=
  snd (fold_left header_step blocks ([], [])).

(** The body of the filtering loop for one block; the state is
    [final]. *)
Definition emit_chunks (tokens : list str) (final : list clause_record)
  : list clause_record :=
  fold_left
    (fun final i =>
       append_record final
         (clean_text
            (convert_tokens_to_string (slice tokens i (i + MAX_TOKENS)))))
    (py_range (length tokens) MAX_TOKENS) final.

Definition filter_step (final : list clause_record) (block : str)
  : list clause_record :=
  let block_clean := clean_text block in
  if is_noise block_clean then final
  else
    let tokens := tokenize block_clean in
    if MAX_TOKENS <? length tokens
    then emit_chunks tokens final
    else append_record final block_clean.

Definition prepare (text : str) : str :=
  strip (replace_char NBSP [SP] (replace_char CR [] text)).

Definition candidate_blocks (text : str) : list str :=
  combine_blocks (accumulate_blocks (re_split_sentences (prepare text))).

Definition split_into_clauses (text : str) : list clause_record :=
  fold_left filter_step (candidate_blocks text) [].

End Segmenter.

(** ** [my_utils.extract_clauses_from_url] *)

Section LineExtractor.

(** The download, the PDF reader and [soup.get_text(separator="\n")]:
    from the URL to the text called [cleaned] in the source. *)
Variable fetch_cleaned_text : str -> str.

Definition extract_clauses_from_url (url : str) : list str :=
  let cleaned := fetch_cleaned_text url in
  map strip
    (filter (fun line => 50 <? length (strip line))
       (split_on LF cleaned)).

End LineExtractor.

(** * Specification vocabulary *)

(** The normal form of [clean_text]: every whitespace character is a
    space, and none follows another whitespace character.  [after_space]
    says that the previous character was whitespace; started at [true], the
    predicate also excludes leading whitespace. *)
Fixpoint single_spaced_from (after_space : bool) (s : str) : bool :=
  match s with
  | c :: s' =>
      if isspace c
      then Ascii.eqb c SP && negb after_space && single_spaced_from true s'
      else single_spaced_from false s'
  | [] => true
  end.

(** A text up to whitespace: its characters other than whitespace. *)
Definition remove_ws (s : str) : str :=
  filter (fun c => negb (isspace c)) s.

(** A sentence boundary is a space that directly follows a full stop, an
    exclamation mark or a question mark; [after] says that the previous
    character was one of the three. *)
Fixpoint has_boundary_from (after : bool) (s : str) : bool :=
  match s with
  | c :: s' =>
      (Ascii.eqb c SP && after) || has_boundary_from (is_terminator c) s'
  | [] => false
  end.

Definition has_sentence_boundary (s : str) : bool :=
  has_boundary_from false s.




Section SegmenterSpec.

Variable tokenize : str -> list str.
Variable convert_tokens_to_string : list str -> str.

(** The text of the [i]-th chunk of a token sequence. *)
Definition chunk_text (tokens : list str) (i : nat) : str :=
  clean_text (convert_tokens_to_string (slice tokens i (i + MAX_TOKENS))).

(** The clause texts that one candidate block contributes. *)
Definition block_texts (block : str) : list str :=
  let block_clean := clean_text block in
  if is_noise block_clean then []
  else
    let tokens := tokenize block_clean in
    if MAX_TOKENS <? length tokens
    then map (chunk_text tokens) (py_range (length tokens) MAX_TOKENS)
    else [block_clean].

(** The two ways a record text comes out of the filtering loop over
    [blocks].  [direct_emit]: a block that passed the filters and has at
    most [MAX_TOKENS] tokens, emitted as normalized. *)
Definition direct_emit (blocks : list str) (c : str) : Prop :=
  exists block,
    In block blocks
    /\ is_noise (clean_text block) = false
    /\ length (tokenize (clean_text block)) <= MAX_TOKENS
    /\ c = clean_text block.

(** [force_split_chunk]: the normalized detokenization of the slice
    [tokens[i:i+512]] of a block that passed the filters and has more than
    [MAX_TOKENS] tokens. *)
Definition force_split_chunk (blocks : list str) (c : str) : Prop :=
  exists block i,
    In block blocks
    /\ is_noise (clean_text block) = false
    /\ MAX_TOKENS < length (tokenize (clean_text block))
    /\ In i (py_range (length (tokenize (clean_text block))) MAX_TOKENS)
    /\ c = clean_text
             (convert_tokens_to_string
                (slice (tokenize (clean_text block)) i (i + MAX_TOKENS))).

End SegmenterSpec.

(** ** A small oracle in the WordPiece style

    A word of two or more characters is cut into its first character and a
    continuation piece marked by two hash signs; the detokenizer joins the
    pieces by spaces and glues the continuation pieces back. *)

Module WordPiece.

Definition pieces (w : str) : list str :=
  match w with
  | [] => []
  | [c] => [[c]]
  | c :: rest => [[c]; lit "##" ++ rest]
  end.

Definition tokenize (s : str) : list str := flat_map pieces (split_ws s).

Definition convert_tokens_to_string (tokens : list str) : str :=
  strip (replace (lit " ##") [] (join [SP] tokens)).

End WordPiece.


(** ** Inputs *)

(** A run-on text without sentence boundary: [x ab ab ... ab] with 512
    times [ab], which the oracle above cuts into 1025 tokens. *)
Definition run_on_text : str := lit "x" ++ concat (repeat (lit " ab") 512).

(** A run-on text of [MAX_TOKENS * 2 + 10] tokens for the oracle above:
    [x ab ... ab y] with 516 times [ab]. *)
Definition oversized_text : str :=
  lit "x" ++ concat (repeat (lit " ab") 516) ++ lit " y".

(** The header example: a header line, a newline, a body sentence. *)
Definition header_example : str :=
  lit "Section 2 General Terms" ++ [LF] ++
  lit "This clause explains general terms and conditions that apply broadly to all policyholders under this agreement.".







(** A page footer of 37 characters. *)
Definition page_footer_example : str :=
  lit "Page 12 of the policy document, 2024.".

(** A text of two lines: the first has 30 characters, the second has 58
    between leading and trailing blanks. *)
Definition two_lines_example : str :=
  lit "A line of thirty characters ok" ++ [LF] ++
  lit "   This line of the page carries many characters in all, yes.   ".

(** * The readers, the entry point and the helpers of [my_utils] *)

(** [s.endswith(suffix)] *)
Definition ends_with (suffix s : str) : bool :=
  starts_with (rev suffix) (rev s).

(** The truth value of a string that may be [None]: [None] and the empty
    string are false. *)
Definition truthy (o : option str) : bool :=
  match o with
  | Some (_ :: _) => true
  | _ => false
  end.

(** ** [extract_clauses.py]: readers and [extract_clauses_from_url] *)

Module Extractor.

Section Readers.

(** The content of a response. *)
Variable bytes : Type.

(** [fitz.open(stream=file_bytes, filetype="pdf")] and [page.get_text()]
    for each page; [docx.Document(BytesIO(file_bytes)).paragraphs] and
    [para.text] for each paragraph. *)
Variable pdf_page_texts : bytes -> list str.
Variable docx_paragraph_texts : bytes -> list str.

(** The decoder of [extract_text_from_txt] and the mail parser of
    [extract_text_from_eml]. *)
Variable extract_text_from_txt : bytes -> str.
Variable extract_text_from_eml : bytes -> str.

(** [requests.get(url)]: the content and the header [Content-Type];
    [mimetypes.guess_type(url)[0]]. *)
Variable http_get : str -> bytes * option str.
Variable guess_type : str -> option str.

Variable tokenize : str -> list str.
Variable convert_tokens_to_string : list str -> str.

Definition extract_text_from_pdf (file_bytes : bytes) : str :=
  join [LF] (pdf_page_texts file_bytes).

Definition extract_text_from_docx (file_bytes : bytes) : str :=
  join [LF]
    (filter (fun text => negb (is_nil (strip text)))
       (docx_paragraph_texts file_bytes)).

(** The text called [raw_text] in [extract_clauses_from_url]. *)
Definition raw_text_from_url (url : str) : str :=
  let response := http_get url in
  let file_bytes := fst response in
  let content_type := snd response in
  let mime_type := guess_type url in
  let mime_type :=
    if negb (truthy mime_type) && truthy content_type
    then content_type else mime_type in
  match mime_type with
  | Some (c :: m) =>
      let mime_type := c :: m in
      if contains (lit "pdf") mime_type
      then extract_text_from_pdf file_bytes
      else if contains (lit "word") mime_type
              || contains (lit "docx") mime_type
      then extract_text_from_docx file_bytes
      else if contains (lit "plain") mime_type
              || ends_with (lit ".txt") url
      then extract_text_from_txt file_bytes
      else if contains (lit "message/rfc822") mime_type
              || ends_with (lit ".eml") url
      then extract_text_from_eml file_bytes
      else extract_text_from_pdf file_bytes
  | _ => extract_text_from_pdf file_bytes
  end.

Definition extract_clauses_from_url (url : str) : list clause_record :=
  split_into_clauses tokenize convert_tokens_to_string
    (raw_text_from_url url).

End Readers.

End Extractor.

(** ** [my_utils.py]: the keyword test and the clause cache *)

Definition keywords : list str :=
  [lit "insurance"; lit "policy"; lit "premium"; lit "claim";
   lit "sum insured"].

Definition is_probably_insurance_policy (text : str) : bool :=
  existsb (fun k => contains k (lower text)) keywords.

(** Files: the content stored under each path.  [open(path, "w")] followed
    by the writes and the close replaces the content of [path].  A file is
    named by the path string used to open it; two strings that a file
    system would resolve to one file are not related here, so nothing is
    said about files other than the one written. *)
Definition file_system := str -> option str.

Definition write_file (fs : file_system) (path content : str)
  : file_system :=
  fun p => if list_eq_dec ascii_dec p path then Some content else fs p.

(** [f"cache/{hash_key}.txt"] *)
Definition cache_path (hash_key : str) : str :=
  lit "cache/" ++ hash_key ++ lit ".txt".

(** What the loop [for clause in clauses: f.write(clause + "\n")] has
    written when it ends. *)
Definition cache_content (clauses : list str) : str :=
  fold_left (fun written clause => written ++ (clause ++ [LF])) clauses [].

Definition save_clause_cache (fs : file_system) (clauses : list str)
           (hash_key : str) : file_system :=
  write_file fs (cache_path hash_key) (cache_content clauses).

(** ** Vocabulary for the properties of the loops *)

(** The last character of [s] is a full stop, an exclamation mark or a
    question mark. *)
Definition ends_with_terminator (s : str) : bool :=
  match rev s with
  | c :: _ => is_terminator c
  | [] => false
  end.

Definition starts_with_space (s : str) : bool :=
  match s with
  | c :: _ => Ascii.eqb c SP
  | [] => false
  end.

(** All elements of a list but the last. *)
Definition all_but_last {A} (l : list A) : list A := removelast l.

(** An oracle for which the text of a chunk never has more tokens than
    the limit: tokenizing the normalized detokenization of a slice of 512
    tokens of a token sequence gives at most 512 tokens. *)
Definition chunk_stable (tokenize : str -> list str)
           (convert_tokens_to_string : list str -> str) : Prop :=
  forall (s : str) (i : nat),
    length
      (tokenize
         (clean_text
            (convert_tokens_to_string
               (slice (tokenize s) i (i + MAX_TOKENS)))))
    <= MAX_TOKENS.

(** ** An oracle with one token per character *)

Module CharOracle.

Definition tokenize (s : str) : list str := map (fun c => [c]) s.

Definition convert_tokens_to_string (tokens : list str) : str :=
  concat tokens.

End CharOracle.

(** A text of 600 characters without sentence boundary. *)
Definition long_word_text : str := concat (repeat (lit "policy") 100).

(** Three sentences. *)
Definition three_sentences : str :=
  lit "The insurer pays the sum insured.  Claims are settled in thirty days! Is that all?".

(** A numbered clause of one sentence. *)
Definition numbered_clause : str :=
  lit "4.2 Exclusions apply to every loss caused by war or by nuclear risks".

(** A text without its spaces. *)
Definition remove_spaces (s : str) : str :=
  filter (fun c => negb (Ascii.eqb c SP)) s.


(** A download that answers with a fixed body and a fixed header. *)
Definition fixed_response (body : str) (content_type : option str)
  : str -> str * option str :=
  fun _ => (body, content_type).

(** A short text that names a policy inside a longer word. *)
Definition keyword_example : str := lit "See the DISCLAIMER below".

(** A text of blanks, tabs, line ends and a non-breaking space. *)
Definition blank_text : str :=
  [SP; ascii_of_nat 9; LF; CR; NBSP; SP; LF].
(** * Properties *)

(** ** The model on small inputs *)

Example clean_text_collapses :
  clean_text ([NBSP; SP] ++ lit "a" ++ [LF; CR] ++ lit "b  c" ++ [NBSP])
  = lit "a b c".
Proof. reflexivity. Qed.

Example re_split_sentences_runs :
  re_split_sentences (lit "One.  Two! Three ?  Four. ")
  = [lit "One."; lit "Two!"; lit "Three ?"; lit "Four."; lit ""].
Proof. reflexivity. Qed.

Example header_match_cases :
  map header_match
    [lit "Section 12 Cover"; lit "Section x"; lit "1.2 Scope of cover";
     lit "1.  ab"; lit "123456 abc"; lit "42"]
  = [true; false; true; true; false; false].
Proof. reflexivity. Qed.

Example is_noise_cases :
  map is_noise
    [lit "Page 12 of the policy document";
     lit "this is the table of contents of it";
     lit "GENERAL POLICY CONDITIONS NOW";
     lit "The insurer pays the sum insured."]
  = [true; true; true; false].
Proof. reflexivity. Qed.

Example clause_id_cases :
  map clause_id [1; 9; 10; 512] 
  = [lit "clause_1"; lit "clause_9"; lit "clause_10"; lit "clause_512"].
Proof. reflexivity. Qed.

Example py_range_cases :
  (py_range 1034 512, py_range 1024 512, py_range 513 512, py_range 0 512)
  = ([0; 512; 1024], [0; 512], [0; 512], []).
Proof. reflexivity. Qed.

Example WordPiece_round_trip :
  WordPiece.tokenize (lit "hello a  wo")
  = [lit "h"; lit "##ello"; lit "a"; lit "w"; lit "##o"]
  /\ WordPiece.convert_tokens_to_string
       (WordPiece.tokenize (lit "hello a  wo")) = lit "hello a wo".
Proof. split; reflexivity. Qed.

(** Two sentences well under the limit: one block, one record. *)
Example split_into_clauses_runs :
  map (fun r => (id r, clause r))
    (split_into_clauses WordPiece.tokenize
       WordPiece.convert_tokens_to_string
       (lit "The insurer pays the sum insured.  Claims are settled in thirty days."))
  = [(lit "clause_1",
      lit "The insurer pays the sum insured. Claims are settled in thirty days.")].
Proof. vm_compute. reflexivity. Qed.

(** A header sentence and a body of 600 tokens: the header block is held
    back and opens the candidate made with the body, which is then cut
    into two chunks. *)
Example header_folding_runs :
  map (fun r => (id r, firstn 22 (clause r), length (clause r)))
    (split_into_clauses WordPiece.tokenize
       WordPiece.convert_tokens_to_string
       (lit "Section 1 Scope." ++ concat (repeat (lit " ab") 300)))
  = [(lit "clause_1", lit "Section 1 Scope. ab ab", 777);
     (lit "clause_2", lit "##b ab ab ab ab ab ab ", 141)].
Proof. vm_compute. reflexivity. Qed.

(** ** The normalizer *)

Lemma isspace_SP : isspace SP = true.
Proof. reflexivity. Qed.

Lemma isspace_NBSP : isspace NBSP = true.
Proof. reflexivity. Qed.

Lemma single_spaced_relax b s :
  single_spaced_from true s = true -> single_spaced_from b s = true.
Proof.
  destruct s as [|c s]; simpl; auto.
  destruct (isspace c); auto.
  rewrite andb_false_r. discriminate.
Qed.

Lemma re_sub_ws_single_spaced b s :
  single_spaced_from b (re_sub_ws_from b s) = true.
Proof.
  revert b; induction s as [|c s IH]; intros b; simpl; auto.
  destruct (isspace c) eqn:Hc.
  - destruct b; auto. simpl. rewrite IH. reflexivity.
  - simpl. rewrite Hc. apply IH.
Qed.

Lemma re_sub_ws_fixpoint b s :
  single_spaced_from b s = true -> re_sub_ws_from b s = s.
Proof.
  revert b; induction s as [|c s IH]; intros b; simpl; auto.
  destruct (isspace c) eqn:Hc; intros H.
  - apply andb_prop in H as [H H2]. apply andb_prop in H as [H0 H1].
    apply Ascii.eqb_eq in H0. destruct b; [discriminate|].
    rewrite (IH true H2). congruence.
  - rewrite (IH false H). reflexivity.
Qed.

Lemma single_spaced_no_nbsp b s :
  single_spaced_from b s = true -> replace_char NBSP [SP] s = s.
Proof.
  revert b; induction s as [|c s IH]; intros b; simpl; auto.
  destruct (Ascii.eqb c NBSP) eqn:Hn.
  - apply Ascii.eqb_eq in Hn; subst c. simpl. discriminate.
  - destruct (isspace c); intros H; simpl.
    + apply andb_prop in H as [_ H]. now rewrite (IH true H).
    + now rewrite (IH false H).
Qed.

Lemma single_spaced_no_cr b s :
  single_spaced_from b s = true -> replace_char CR [] s = s.
Proof.
  revert b; induction s as [|c s IH]; intros b; simpl; auto.
  destruct (Ascii.eqb c CR) eqn:Hn.
  - apply Ascii.eqb_eq in Hn; subst c. simpl. discriminate.
  - destruct (isspace c); intros H; simpl.
    + apply andb_prop in H as [_ H]. now rewrite (IH true H).
    + now rewrite (IH false H).
Qed.

Lemma single_spaced_lstrip b s :
  single_spaced_from b s = true -> single_spaced_from true (lstrip s) = true.
Proof.
  revert b; induction s as [|c s IH]; intros b; simpl; auto.
  destruct (isspace c) eqn:Hc; intros H.
  - apply andb_prop in H as [_ H]. eapply IH; eauto.
  - simpl. now rewrite Hc.
Qed.

Lemma single_spaced_rstrip b s :
  single_spaced_from b s = true -> single_spaced_from b (rstrip s) = true.
Proof.
  revert b; induction s as [|c s IH]; intros b; simpl; auto.
  intros H.
  destruct (isspace c && is_nil (rstrip s)) eqn:E; simpl; auto.
  destruct (isspace c).
  - apply andb_prop in H as [H H2]. rewrite H. simpl. now apply IH.
  - now apply IH.
Qed.

Lemma lstrip_fixpoint s :
  single_spaced_from true s = true -> lstrip s = s.
Proof.
  destruct s as [|c s]; simpl; auto.
  destruct (isspace c); auto.
  rewrite andb_false_r. discriminate.
Qed.

Lemma rstrip_idempotent s : rstrip (rstrip s) = rstrip s.
Proof.
  induction s as [|c s IH]; simpl; auto.
  destruct (isspace c && is_nil (rstrip s)) eqn:E; simpl; auto.
  rewrite IH, E. reflexivity.
Qed.

Lemma rstrip_snoc l c :
  rstrip (l ++ [c]) = if isspace c then rstrip l else l ++ [c].
Proof.
  induction l as [|a l IH]; simpl.
  - destruct (isspace c); reflexivity.
  - rewrite IH. destruct (isspace c); auto.
    destruct (l ++ [c]) eqn:E.
    + destruct l; discriminate.
    + rewrite andb_false_r. reflexivity.
Qed.

Lemma rstrip_length s : length (rstrip s) <= length s.
Proof.
  induction s as [|c s IH]; simpl; auto.
  destruct (isspace c && is_nil (rstrip s)); simpl; lia.
Qed.

Lemma lstrip_length s : length (lstrip s) <= length s.
Proof.
  induction s as [|c s IH]; simpl; auto.
  destruct (isspace c); simpl; lia.
Qed.

Lemma rstrip_last s front c :
  rstrip s = front ++ [c] -> isspace c = false.
Proof.
  intros H. destruct (isspace c) eqn:Hc; auto.
  pose proof (rstrip_idempotent s) as Hi.
  rewrite H, rstrip_snoc, Hc in Hi.
  pose proof (rstrip_length front) as Hl.
  rewrite Hi, length_app in Hl. simpl in Hl. lia.
Qed.

Lemma lstrip_idempotent s : lstrip (lstrip s) = lstrip s.
Proof.
  induction s as [|c s IH]; simpl; auto.
  destruct (isspace c) eqn:Hc; auto. simpl. now rewrite Hc.
Qed.

Lemma lstrip_head s c l : lstrip s = c :: l -> isspace c = false.
Proof.
  induction s as [|a s IH]; simpl; [discriminate|].
  destruct (isspace a) eqn:Ha; auto.
  intros H. injection H as <- _. exact Ha.
Qed.

Lemma rstrip_head s c l :
  rstrip s = c :: l -> exists l', s = c :: l'.
Proof.
  destruct s as [|a s]; simpl; [discriminate|].
  destruct (isspace a && is_nil (rstrip s)); [discriminate|].
  intros H. injection H as <- _. eauto.
Qed.

(** [strip] is idempotent: what it returns has no whitespace at either
    end. *)
Lemma lstrip_rstrip_nonspace_head s :
  lstrip (rstrip (lstrip s)) = rstrip (lstrip s).
Proof.
  destruct (rstrip (lstrip s)) as [|c l] eqn:E; auto.
  destruct (rstrip_head _ _ _ E) as [l' Hl'].
  apply lstrip_head in Hl'. simpl. now rewrite Hl'.
Qed.

Lemma strip_idempotent s : strip (strip s) = strip s.
Proof.
  unfold strip. rewrite lstrip_rstrip_nonspace_head. apply rstrip_idempotent.
Qed.

Lemma single_spaced_only_spaces b s c :
  single_spaced_from b s = true -> In c s -> isspace c = true -> c = SP.
Proof.
  revert b; induction s as [|a s IH]; intros b H Hin Hc; [contradiction|].
  simpl in H. destruct Hin as [->|Hin].
  - rewrite Hc in H. apply andb_prop in H as [H _].
    apply andb_prop in H as [H _]. now apply Ascii.eqb_eq in H.
  - destruct (isspace a).
    + apply andb_prop in H as [_ H]. eauto.
    + eauto.
Qed.

Lemma single_spaced_no_double b l1 l2 :
  single_spaced_from b (l1 ++ SP :: SP :: l2) = false.
Proof.
  revert b; induction l1 as [|a l1 IH]; intros b; simpl.
  - now rewrite andb_false_r.
  - destruct (isspace a); auto. rewrite IH. apply andb_false_r.
Qed.

Lemma clean_text_single_spaced s :
  single_spaced_from true (clean_text s) = true.
Proof.
  unfold clean_text, strip, re_sub_ws.
  pose proof (re_sub_ws_single_spaced false s) as H.
  rewrite (single_spaced_no_nbsp _ _ H).
  apply single_spaced_rstrip. eapply single_spaced_lstrip; eauto.
Qed.

Lemma clean_text_fixpoint t :
  single_spaced_from true t = true -> rstrip t = t -> clean_text t = t.
Proof.
  intros H Hr. unfold clean_text, strip, re_sub_ws.
  rewrite (re_sub_ws_fixpoint false t (single_spaced_relax false t H)).
  rewrite (single_spaced_no_nbsp _ _ H).
  rewrite (lstrip_fixpoint _ H). exact Hr.
Qed.

Lemma clean_text_rstrip s : rstrip (clean_text s) = clean_text s.
Proof. unfold clean_text, strip. apply rstrip_idempotent. Qed.

Lemma clean_text_idempotent s : clean_text (clean_text s) = clean_text s.
Proof.
  apply clean_text_fixpoint.
  - apply clean_text_single_spaced.
  - apply clean_text_rstrip.
Qed.

(** ** Texts without whitespace at the ends *)

Lemma strip_fixpoint s :
  single_spaced_from true s = true -> rstrip s = s -> strip s = s.
Proof.
  intros H Hr. unfold strip. now rewrite (lstrip_fixpoint _ H).
Qed.

Lemma prepare_fixpoint s :
  single_spaced_from true s = true -> rstrip s = s -> prepare s = s.
Proof.
  intros H Hr. unfold prepare.
  rewrite (single_spaced_no_cr _ _ H), (single_spaced_no_nbsp _ _ H).
  now apply strip_fixpoint.
Qed.

(** ** Sentences *)

Lemma re_split_no_boundary s after cur :
  has_boundary_from after s = false ->
  re_split_sentences_from (Scanning after) cur s = [rev cur ++ s].
Proof.
  revert after cur; induction s as [|c s IH]; intros after cur H; simpl.
  - now rewrite app_nil_r.
  - simpl in H. apply orb_false_elim in H as [H1 H2].
    rewrite H1, (IH _ _ H2). simpl. now rewrite <- app_assoc.
Qed.

Lemma re_split_single s :
  has_sentence_boundary s = false -> re_split_sentences s = [s].
Proof. intros H. apply (re_split_no_boundary _ _ [] H). Qed.

(** ** The header loop *)

(** The candidates that the header loop adds when it starts with the
    pending header [h]. *)
Lemma header_step_acc h acc b :
  header_step (h, acc) b
  = (fst (header_step (h, []) b), acc ++ snd (header_step (h, []) b)).
Proof.
  unfold header_step.
  destruct (header_match (strip b)); simpl.
  - now rewrite app_nil_r.
  - reflexivity.
Qed.

Lemma header_loop_acc blocks h acc :
  fold_left header_step blocks (h, acc)
  = (fst (fold_left header_step blocks (h, [])),
     acc ++ snd (fold_left header_step blocks (h, []))).
Proof.
  revert h acc; induction blocks as [|b blocks IH]; intros h acc.
  - simpl. now rewrite app_nil_r.
  - cbn [fold_left]. rewrite header_step_acc.
    destruct (header_step (h, []) b) as [h' e]. cbn [fst snd].
    rewrite (IH h' (acc ++ e)), (IH h' e).
    cbn [fst snd]. now rewrite app_assoc.
Qed.


Lemma header_loop_header h b rest :
  header_match (strip b) = true ->
  snd (fold_left header_step (b :: rest) (h, []))
  = snd (fold_left header_step rest (strip b, [])).
Proof.
  intros Hb. cbn [fold_left]. unfold header_step at 2. now rewrite Hb.
Qed.

Lemma header_loop_body h b rest :
  header_match (strip b) = false ->
  snd (fold_left header_step (b :: rest) (h, []))
  = (if is_nil h then strip b else h ++ [LF] ++ strip b)
      :: snd (fold_left header_step rest ([], [])).
Proof.
  intros Hb. cbn [fold_left]. unfold header_step at 2. rewrite Hb.
  rewrite header_loop_acc. reflexivity.
Qed.

Lemma header_match_nonempty s : header_match s = true -> is_nil s = false.
Proof. destruct s; [discriminate|reflexivity]. Qed.





Lemma combine_body_first b post :
  header_match (strip b) = false ->
  combine_blocks (b :: post) = strip b :: combine_blocks post.
Proof.
  intros Hb. unfold combine_blocks.
  now rewrite (header_loop_body _ _ _ Hb).
Qed.


Lemma combine_blocks_single b :
  combine_blocks [b] = if header_match (strip b) then [] else [strip b].
Proof.
  unfold combine_blocks. cbn [fold_left]. unfold header_step.
  destruct (header_match (strip b)); reflexivity.
Qed.

(** ** Record numbering *)



Lemma append_records_clauses texts final :
  map clause (fold_left append_record texts final)
  = map clause final ++ texts.
Proof.
  revert final; induction texts as [|t texts IH]; intros final; simpl.
  - now rewrite app_nil_r.
  - rewrite IH. unfold append_record. rewrite map_app, <- app_assoc.
    reflexivity.
Qed.


Lemma fold_left_map_arg {A B C} (f : A -> C -> A) (g : B -> C) l a :
  fold_left (fun acc x => f acc (g x)) l a = fold_left f (map g l) a.
Proof.
  revert a; induction l as [|x l IH]; intros a; simpl; auto.
Qed.

(** ** Slices *)

Lemma slice_width {A} (l : list A) i n :
  slice l i (i + n) = firstn n (skipn i l).
Proof.
  unfold slice. now rewrite Nat.add_comm, Nat.add_sub.
Qed.

Lemma slice_length {A} (l : list A) i n : length (slice l i (i + n)) <= n.
Proof.
  rewrite slice_width. rewrite length_firstn. lia.
Qed.

Lemma three_slices {A} (l : list A) n k :
  length l = n * 2 + k -> k <= n ->
  length (slice l 0 n) = n
  /\ length (slice l n (n * 2)) = n
  /\ length (slice l (n * 2) (n * 3)) = k
  /\ slice l 0 n ++ slice l n (n * 2) ++ slice l (n * 2) (n * 3) = l.
Proof.
  intros Hl Hk. unfold slice.
  replace (n - 0) with n by lia.
  replace (n * 2 - n) with n by lia.
  replace (n * 3 - n * 2) with n by lia.
  rewrite !length_firstn, !length_skipn.
  repeat split; try lia.
  simpl skipn.
  replace (n * 2) with (n + n) by lia.
  rewrite <- (skipn_skipn n n l).
  rewrite (firstn_all2 (n := n) (skipn n (skipn n l)))
    by (rewrite !length_skipn; lia).
  now rewrite !firstn_skipn.
Qed.

Section SegmenterProperties.

Variable tokenize : str -> list str.
Variable convert_tokens_to_string : list str -> str.

Local Notation "'segment'" :=
  (split_into_clauses tokenize convert_tokens_to_string).
Local Notation "'filter_body'" :=
  (filter_step tokenize convert_tokens_to_string).
Local Notation "'candidates'" := (candidate_blocks tokenize).

Lemma filter_step_texts final block :
  filter_body final block
  = fold_left append_record (block_texts tokenize convert_tokens_to_string block) final.
Proof.
  unfold filter_step, block_texts, emit_chunks.
  destruct (is_noise (clean_text block)); [reflexivity|].
  destruct (MAX_TOKENS <? length (tokenize (clean_text block)));
    [|reflexivity].
  apply (fold_left_map_arg append_record
           (chunk_text convert_tokens_to_string (tokenize (clean_text block)))).
Qed.

Lemma filter_loop_texts blocks final :
  fold_left filter_body blocks final
  = fold_left append_record
      (flat_map (block_texts tokenize convert_tokens_to_string) blocks) final.
Proof.
  revert final; induction blocks as [|b blocks IH]; intros final; simpl.
  - reflexivity.
  - rewrite IH, filter_step_texts, fold_left_app. reflexivity.
Qed.

Lemma split_into_clauses_clauses text :
  map clause (segment text)
  = flat_map (block_texts tokenize convert_tokens_to_string) (candidates text).
Proof.
  unfold split_into_clauses.
  rewrite filter_loop_texts, append_records_clauses. reflexivity.
Qed.


Lemma block_texts_provenance blocks c :
  In c (flat_map (block_texts tokenize convert_tokens_to_string) blocks) ->
  direct_emit tokenize blocks c
  \/ force_split_chunk tokenize convert_tokens_to_string blocks c.
Proof.
  rewrite in_flat_map. intros (block & Hb & Hc).
  unfold block_texts in Hc.
  destruct (is_noise (clean_text block)) eqn:Hn; [contradiction|].
  destruct (MAX_TOKENS <? length (tokenize (clean_text block))) eqn:Hl.
  - right. apply in_map_iff in Hc as (i & <- & Hi).
    apply Nat.ltb_lt in Hl.
    exists block, i. repeat split; assumption.
  - left. destruct Hc as [<-|[]].
    apply Nat.ltb_ge in Hl.
    exists block. repeat split; assumption.
Qed.

Lemma records_provenance text :
  Forall (fun r =>
            direct_emit tokenize (candidates text) (clause r)
            \/ force_split_chunk tokenize convert_tokens_to_string
                 (candidates text) (clause r))
         (segment text).
Proof.
  apply Forall_forall. intros r Hr.
  apply block_texts_provenance.
  rewrite <- split_into_clauses_clauses. now apply in_map.
Qed.

Lemma not_noise_length s : is_noise s = false -> 25 <= length s.
Proof.
  unfold is_noise. intros H.
  repeat (apply orb_false_elim in H as [H _]).
  now apply Nat.ltb_ge in H.
Qed.

(** C1, as the code has it.  A record emitted by the direct branch is a
    normalized block of at most 512 tokens, so the token count of its
    normalized text is within the budget.  A record emitted by the
    force-split branch is the normalized detokenization of a slice of at
    most 512 tokens of the block; the code does not tokenize that text
    again. *)
Theorem token_budget_by_branch :
  forall text : str,
    Forall
      (fun r =>
         (direct_emit tokenize (candidate_blocks tokenize text) (clause r)
          /\ length (tokenize (clean_text (clause r))) <= MAX_TOKENS)
         \/ (force_split_chunk tokenize convert_tokens_to_string
               (candidate_blocks tokenize text) (clause r)
             /\ exists tokens,
                 clause r = clean_text (convert_tokens_to_string tokens)
                 /\ length tokens <= MAX_TOKENS))
      (split_into_clauses tokenize convert_tokens_to_string text).
Proof.
  intros text.
  eapply Forall_impl; [|apply records_provenance].
  intros r [Hd|Hf].
  - left. split; [exact Hd|].
    destruct Hd as (block & _ & _ & Hlen & ->).
    now rewrite clean_text_idempotent.
  - right. split; [exact Hf|].
    destruct Hf as (block & i & _ & _ & _ & _ & ->).
    eexists. split; [reflexivity|]. apply slice_length.
Qed.

(** C2, as the code has it.  A record emitted by the direct branch has at
    least 25 characters, because the block passed the length filter.  The
    chunks of the force-split branch are not measured: such a record is
    the normalized detokenization of a token slice, of any length. *)
Theorem min_length_by_branch :
  forall text : str,
    Forall
      (fun r =>
         (direct_emit tokenize (candidate_blocks tokenize text) (clause r)
          /\ 25 <= length (clause r))
         \/ force_split_chunk tokenize convert_tokens_to_string
              (candidate_blocks tokenize text) (clause r))
      (split_into_clauses tokenize convert_tokens_to_string text).
Proof.
  intros text.
  eapply Forall_impl; [|apply records_provenance].
  intros r [Hd|Hf]; [left|right; exact Hf].
  split; [exact Hd|].
  destruct Hd as (block & _ & Hn & _ & ->).
  now apply not_noise_length.
Qed.

(** C4, as the code has it.  When the only candidate block passes the
    filters and has [MAX_TOKENS * 2 + 10] tokens (as a run-on text without
    sentence boundary does), exactly three records come out, numbered 1 to
    3; their texts are the normalized detokenizations of the slices
    [tokens[0:512]], [tokens[512:1024]] and [tokens[1024:1536]], which
    hold 512, 512 and 10 tokens and concatenate to the token sequence of
    the block. *)
Theorem oversized_block_three_chunks :
  forall text block : str,
    candidate_blocks tokenize text = [block] ->
    is_noise (clean_text block) = false ->
    length (tokenize (clean_text block)) = MAX_TOKENS * 2 + 10 ->
    split_into_clauses tokenize convert_tokens_to_string text
    = [ {| clause :=
             clean_text
               (convert_tokens_to_string
                  (slice (tokenize (clean_text block)) 0 MAX_TOKENS));
           id := lit "clause_1" |};
        {| clause :=
             clean_text
               (convert_tokens_to_string
                  (slice (tokenize (clean_text block))
                     MAX_TOKENS (MAX_TOKENS * 2)));
           id := lit "clause_2" |};
        {| clause :=
             clean_text
               (convert_tokens_to_string
                  (slice (tokenize (clean_text block))
                     (MAX_TOKENS * 2) (MAX_TOKENS * 3)));
           id := lit "clause_3" |} ]
    /\ length (slice (tokenize (clean_text block)) 0 MAX_TOKENS)
       = MAX_TOKENS
    /\ length (slice (tokenize (clean_text block))
                 MAX_TOKENS (MAX_TOKENS * 2)) = MAX_TOKENS
    /\ length (slice (tokenize (clean_text block))
                 (MAX_TOKENS * 2) (MAX_TOKENS * 3)) = 10
    /\ slice (tokenize (clean_text block)) 0 MAX_TOKENS
       ++ slice (tokenize (clean_text block)) MAX_TOKENS (MAX_TOKENS * 2)
       ++ slice (tokenize (clean_text block))
            (MAX_TOKENS * 2) (MAX_TOKENS * 3)
       = tokenize (clean_text block).
Proof.
  intros text block Hblocks Hnoise Hlen.
  split.
  - unfold split_into_clauses. rewrite Hblocks.
    cbn [fold_left]. unfold filter_step, emit_chunks.
    rewrite Hnoise, Hlen.
    change (MAX_TOKENS <? MAX_TOKENS * 2 + 10) with true.
    change (py_range (MAX_TOKENS * 2 + 10) MAX_TOKENS)
      with [0; MAX_TOKENS; MAX_TOKENS * 2].
    cbn [fold_left]. unfold append_record. cbn [app length].
    reflexivity.
  - apply three_slices; [exact Hlen|].
    apply Nat.leb_le. reflexivity.
Qed.

(** The sentence loop on a single sentence: whatever the token count, the
    sentence becomes the buffer, and the buffer is flushed at the end. *)
Lemma accumulate_single s :
  accumulate_blocks tokenize [s] = if is_nil s then [] else [strip s].
Proof.
  unfold accumulate_blocks. cbn [fold_left]. unfold accumulate_step.
  cbn [is_nil].
  destruct (length (tokenize s) <=? MAX_TOKENS); reflexivity.
Qed.

Lemma single_sentence_candidates text s :
  re_split_sentences (prepare text) = [s] ->
  candidate_blocks tokenize text
  = combine_blocks (if is_nil s then [] else [strip s]).
Proof.
  intros H. unfold candidate_blocks. now rewrite H, accumulate_single.
Qed.


(** ** Filtered inputs *)

Lemma noise_blocks_filtered blocks final :
  Forall (fun b => is_noise (clean_text b) = true) blocks ->
  fold_left filter_body blocks final = final.
Proof.
  induction 1 as [|b blocks Hb _ IH]; simpl; auto.
  unfold filter_step at 2. now rewrite Hb.
Qed.

Lemma empty_text_candidates : candidates [] = [].
Proof.
  now rewrite (single_sentence_candidates [] []).
Qed.


(** C8. The empty text, and any text whose candidate blocks are all
    removed by the filters, give the empty list of records: the loops run
    to their end and [final] is returned as it was created. *)
Theorem empty_or_filtered_input_yields_nothing :
  forall text : str,
    text = []
    \/ Forall (fun b => is_noise (clean_text b) = true)
         (candidate_blocks tokenize text) ->
    split_into_clauses tokenize convert_tokens_to_string text = [].
Proof.
  intros text [->|H]; unfold split_into_clauses.
  - now rewrite empty_text_candidates.
  - now apply noise_blocks_filtered.
Qed.

End SegmenterProperties.

(** ** The force-split branch on a concrete run *)

Lemma Forall_forallb {A} (P : A -> Prop) (f : A -> bool) l :
  (forall x, P x -> f x = true) -> Forall P l -> forallb f l = true.
Proof.
  intros Hf H. induction H; simpl; auto.
  rewrite Hf by assumption. assumption.
Qed.

(** Refutes [Forall (fun r => n r <= m r) l] on a closed list by running
    the boolean test [f] over it. *)
Ltac refute_bound_by_running f :=
  let H := fresh "H" in
  intros H;
  apply (Forall_forallb _ f) in H;
  [ vm_compute in H; discriminate
  | intros ? ?; now apply Nat.leb_le ].

(** C1 fails in the force-split branch.  On [run_on_text] the second chunk
    starts with a continuation piece; its text starts with two hash signs,
    which the oracle reads as a word of its own, and tokenizes to 513
    tokens. *)
Lemma token_budget_counterexample :
  ~ Forall
      (fun r =>
         length (WordPiece.tokenize (clean_text (clause r))) <= MAX_TOKENS)
      (split_into_clauses WordPiece.tokenize
         WordPiece.convert_tokens_to_string run_on_text).
Proof.
  refute_bound_by_running
    (fun r => length (WordPiece.tokenize (clean_text (clause r)))
              <=? MAX_TOKENS).
Qed.

(** C2 fails in the force-split branch.  On [run_on_text] the third chunk
    is the single last token, a text of 3 characters. *)
Lemma min_length_counterexample :
  ~ Forall
      (fun r => 25 <= length (clause r))
      (split_into_clauses WordPiece.tokenize
         WordPiece.convert_tokens_to_string run_on_text).
Proof.
  refute_bound_by_running (fun r => 25 <=? length (clause r)).
Qed.

(** A witness of C4: [oversized_text] is its own single candidate block,
    passes the filters and has 1034 tokens; three records come out. *)
Lemma oversized_block_witness :
  candidate_blocks WordPiece.tokenize oversized_text = [oversized_text]
  /\ is_noise (clean_text oversized_text) = false
  /\ length (WordPiece.tokenize (clean_text oversized_text))
     = MAX_TOKENS * 2 + 10
  /\ map id
       (split_into_clauses WordPiece.tokenize
          WordPiece.convert_tokens_to_string oversized_text)
     = [lit "clause_1"; lit "clause_2"; lit "clause_3"].
Proof.
  assert (H1 : candidate_blocks WordPiece.tokenize oversized_text
               = [oversized_text]) by (vm_compute; reflexivity).
  assert (H2 : is_noise (clean_text oversized_text) = false)
    by (vm_compute; reflexivity).
  assert (H3 : length (WordPiece.tokenize (clean_text oversized_text))
               = MAX_TOKENS * 2 + 10) by (vm_compute; reflexivity).
  repeat (split; [assumption|]).
  destruct (oversized_block_three_chunks
              WordPiece.tokenize WordPiece.convert_tokens_to_string
              oversized_text oversized_text H1 H2 H3) as [E _].
  rewrite E. reflexivity.
Defined.

(** C4 fails as stated.  On [oversized_text] the premises hold and three
    records come out, but the second and the third start inside a word:
    their texts carry the continuation mark, so the three texts do not
    give back the block even when all whitespace is ignored, and the
    second text has 513 tokens. *)
Lemma oversized_block_counterexample :
  candidate_blocks WordPiece.tokenize oversized_text = [oversized_text]
  /\ has_sentence_boundary oversized_text = false
  /\ is_noise (clean_text oversized_text) = false
  /\ length (WordPiece.tokenize (clean_text oversized_text))
     = MAX_TOKENS * 2 + 10
  /\ remove_ws
       (concat
          (map clause
             (split_into_clauses WordPiece.tokenize
                WordPiece.convert_tokens_to_string oversized_text)))
     <> remove_ws oversized_text
  /\ ~ Forall
        (fun r => length (WordPiece.tokenize (clause r)) <= MAX_TOKENS)
        (split_into_clauses WordPiece.tokenize
           WordPiece.convert_tokens_to_string oversized_text).
Proof.
  split; [vm_compute; reflexivity|].
  split; [vm_compute; reflexivity|].
  split; [vm_compute; reflexivity|].
  split; [vm_compute; reflexivity|].
  split.
  - intros H.
    apply (f_equal (existsb (Ascii.eqb "#"%char))) in H.
    vm_compute in H. discriminate.
  - refute_bound_by_running
      (fun r => length (WordPiece.tokenize (clause r)) <=? MAX_TOKENS).
Qed.

(** The header example: the text is one sentence, hence one block, and the
    block matches the header pattern, so no record is emitted and there is
    no record that begins with the header line. *)
Lemma header_example_yields_nothing :
  split_into_clauses WordPiece.tokenize WordPiece.convert_tokens_to_string
    header_example = []
  /\ ~ exists r,
        split_into_clauses WordPiece.tokenize
          WordPiece.convert_tokens_to_string header_example = [r]
        /\ starts_with (lit "Section 2 General Terms") (clause r) = true.
Proof.
  split.
  - vm_compute. reflexivity.
  - intros (r & H & _). vm_compute in H. discriminate.
Qed.


(** A witness of C8: a page footer is a candidate block, and the page
    filter removes it. *)
Lemma filtered_input_witness :
  candidate_blocks WordPiece.tokenize page_footer_example
  = [page_footer_example]
  /\ split_into_clauses WordPiece.tokenize
       WordPiece.convert_tokens_to_string page_footer_example = [].
Proof.
  assert (E : candidate_blocks WordPiece.tokenize page_footer_example
              = [page_footer_example]) by (vm_compute; reflexivity).
  split; [exact E|].
  apply (empty_or_filtered_input_yields_nothing
           WordPiece.tokenize WordPiece.convert_tokens_to_string).
  right. rewrite E. constructor; [vm_compute; reflexivity|constructor].
Defined.

(** ** The line filter of [my_utils] *)

(** C10. Every string that [my_utils.extract_clauses_from_url] returns has
    more than 50 characters and is its own [strip]: it has no whitespace
    at either end.  The result is a list of strings, without ids. *)
Theorem extract_clauses_from_url_lines :
  forall (fetch_cleaned_text : str -> str) (url : str),
    Forall (fun c => 50 < length c /\ strip c = c)
      (extract_clauses_from_url fetch_cleaned_text url).
Proof.
  intros fetch url. unfold extract_clauses_from_url.
  apply Forall_forall. intros c Hc.
  apply in_map_iff in Hc as (line & <- & Hline).
  apply filter_In in Hline as [_ Hlen].
  apply Nat.ltb_lt in Hlen.
  split; [exact Hlen|apply strip_idempotent].
Qed.

(** The floor of this path is 50, not 25: a line of 30 characters is
    dropped, and the line that stays is returned trimmed. *)
Lemma extract_clauses_from_url_example :
  extract_clauses_from_url (fun _ => two_lines_example) (lit "u")
  = [lit "This line of the page carries many characters in all, yes."].
Proof. vm_compute. reflexivity. Qed.

(** * Further properties of the two modules *)

(** ** [clean_text] and [str.split] *)

Lemma split_ws_re_sub s :
  (forall cur,
      split_ws_from cur (re_sub_ws_from false s) = split_ws_from cur s)
  /\ split_ws_from [] (re_sub_ws_from true s) = split_ws_from [] s.
Proof.
  induction s as [|c s [IHf IHt]]; [split; reflexivity|].
  split.
  - intros cur. simpl. destruct (isspace c) eqn:Hc.
    + simpl. rewrite IHt. reflexivity.
    + simpl. rewrite Hc. apply IHf.
  - simpl. destruct (isspace c) eqn:Hc.
    + exact IHt.
    + simpl. rewrite Hc. apply IHf.
Qed.

Lemma split_ws_replace_nbsp s cur :
  split_ws_from cur (replace_char NBSP [SP] s) = split_ws_from cur s.
Proof.
  revert cur; induction s as [|c s IH]; intros cur; [reflexivity|].
  unfold replace_char in *. simpl.
  destruct (Ascii.eqb c NBSP) eqn:E.
  - apply Ascii.eqb_eq in E; subst c. simpl. rewrite !IH. reflexivity.
  - simpl. destruct (isspace c); rewrite ?IH; reflexivity.
Qed.

Lemma split_ws_lstrip s : split_ws_from [] (lstrip s) = split_ws_from [] s.
Proof.
  induction s as [|c s IH]; [reflexivity|].
  simpl. destruct (isspace c) eqn:Hc; [exact IH|].
  simpl. now rewrite Hc.
Qed.

Lemma split_ws_rstrip s cur :
  split_ws_from cur (rstrip s) = split_ws_from cur s.
Proof.
  revert cur; induction s as [|c s IH]; intros cur; [reflexivity|].
  simpl. destruct (isspace c) eqn:Hc; simpl.
  - destruct (rstrip s) eqn:E; simpl.
    + rewrite <- (IH []). reflexivity.
    + rewrite Hc, <- !IH. reflexivity.
  - rewrite Hc. apply IH.
Qed.

Lemma split_ws_clean_text s : split_ws (clean_text s) = split_ws s.
Proof.
  unfold split_ws, clean_text, strip, re_sub_ws.
  rewrite split_ws_rstrip, split_ws_lstrip, split_ws_replace_nbsp.
  apply (proj1 (split_ws_re_sub s)).
Qed.

Lemma split_ws_from_nonempty s cur :
  cur <> [] -> split_ws_from cur s <> [].
Proof.
  revert cur; induction s as [|c s IH]; intros cur Hcur; simpl.
  - destruct cur; [contradiction|discriminate].
  - destruct (isspace c).
    + destruct cur; [contradiction|discriminate].
    + apply IH. discriminate.
Qed.

Lemma join_cons sep p ps :
  ps <> [] -> join sep (p :: ps) = p ++ sep ++ join sep ps.
Proof. destruct ps; [contradiction|reflexivity]. Qed.

Lemma join_split_normal t :
  forall cur,
    single_spaced_from (is_nil cur) t = true ->
    rstrip t = t ->
    join [SP] (split_ws_from cur t) = rev cur ++ t.
Proof.
  induction t as [|c t IH]; intros cur Hss Hr.
  - simpl. destruct cur; simpl; now rewrite ?app_nil_r.
  - simpl in Hss, Hr |- *. destruct (isspace c) eqn:Hc.
    + apply andb_prop in Hss as [Hss Ht].
      apply andb_prop in Hss as [Hsp Hcur].
      apply Ascii.eqb_eq in Hsp; subst c.
      destruct cur as [|a cur]; [discriminate|]. cbn [is_nil].
      destruct (rstrip t) as [|d r] eqn:Et; [discriminate|].
      simpl in Hr. injection Hr as Hr.
      assert (Hne : split_ws_from [] t <> []).
      { destruct t as [|d' t']; [discriminate Hr|].
        simpl in Ht |- *. destruct (isspace d').
        { apply andb_prop in Ht as [Ht _].
          apply andb_prop in Ht as [_ Ht]. discriminate Ht. }
        apply split_ws_from_nonempty. discriminate. }
      rewrite (join_cons _ _ _ Hne).
      rewrite (IH [] Ht) by exact Hr.
      reflexivity.
    + simpl in Hr. injection Hr as Hr.
      rewrite (IH (c :: cur) Hss Hr). simpl.
      now rewrite <- app_assoc.
Qed.

(** X1. [clean_text(s)] is the words of [s] joined by single spaces: it
    equals [" ".join(s.split())]. *)
Theorem clean_text_join_split :
  forall s : str, clean_text s = join [SP] (split_ws s).
Proof.
  intros s. rewrite <- split_ws_clean_text. symmetry.
  apply (join_split_normal (clean_text s) []).
  - apply clean_text_single_spaced.
  - apply clean_text_rstrip.
Qed.

Lemma re_sub_ws_from_length b s :
  length (re_sub_ws_from b s) <= length s.
Proof.
  revert b; induction s as [|c s IH]; intros b; simpl; [lia|].
  pose proof (IH true). pose proof (IH false).
  destruct (isspace c); [destruct b|]; simpl; lia.
Qed.

Lemma replace_nbsp_length s :
  length (replace_char NBSP [SP] s) = length s.
Proof.
  induction s as [|c s IH]; [reflexivity|].
  unfold replace_char in *. simpl.
  destruct (Ascii.eqb c NBSP); simpl; now rewrite IH.
Qed.

Lemma strip_length s : length (strip s) <= length s.
Proof.
  unfold strip.
  pose proof (rstrip_length (lstrip s)). pose proof (lstrip_length s). lia.
Qed.

Lemma clean_text_length s : length (clean_text s) <= length s.
Proof.
  unfold clean_text.
  pose proof (strip_length (replace_char NBSP [SP] (re_sub_ws s))) as H1.
  rewrite replace_nbsp_length in H1.
  pose proof (re_sub_ws_from_length false s) as H2.
  unfold re_sub_ws in *. lia.
Qed.

(** X2. [clean_text] never makes a text longer, and it keeps its
    words: [clean_text(s).split() == s.split()]. *)
Theorem clean_text_shrinks_keeps_words :
  forall s : str,
    length (clean_text s) <= length s
    /\ split_ws (clean_text s) = split_ws s.
Proof.
  intros s. split.
  - apply clean_text_length.
  - apply split_ws_clean_text.
Qed.

(** ** The sentence splitter *)

Lemma remove_spaces_app a b :
  remove_spaces (a ++ b) = remove_spaces a ++ remove_spaces b.
Proof. apply filter_app. Qed.

Lemma removelast_cons {A} (x : A) l :
  l <> [] -> removelast (x :: l) = x :: removelast l.
Proof. destruct l; [contradiction|reflexivity]. Qed.

Lemma ends_with_terminator_rev cur :
  ends_with_terminator (rev cur)
  = match cur with c :: _ => is_terminator c | [] => false end.
Proof. unfold ends_with_terminator. now rewrite rev_involutive. Qed.

Lemma re_split_from_shape s :
  forall m cur,
    match m with
    | Scanning after => after = ends_with_terminator (rev cur)
    | InSeparator => cur = []
    end ->
    re_split_sentences_from m cur s <> []
    /\ Forall (fun p => ends_with_terminator p = true)
         (removelast (re_split_sentences_from m cur s))
    /\ Forall (fun p => starts_with_space p = false)
         (tl (re_split_sentences_from m cur s))
    /\ match m with
       | Scanning _ =>
           exists p, hd [] (re_split_sentences_from m cur s) = rev cur ++ p
       | InSeparator =>
           starts_with_space (hd [] (re_split_sentences_from m cur s))
           = false
       end.
Proof.
  induction s as [|c s IH]; intros m cur Hm.
  - simpl. repeat split; try discriminate; try constructor.
    destruct m.
    + exists []. now rewrite app_nil_r.
    + subst cur. reflexivity.
  - destruct m as [after|].
    + simpl. destruct (Ascii.eqb c SP && after) eqn:E.
      * apply andb_prop in E as [_ Ha]. subst after.
        destruct (IH InSeparator [] eq_refl) as (Hne & H1 & H2 & H3).
        split; [discriminate|]. split; [|split].
        -- rewrite (removelast_cons _ _ Hne). constructor; auto.
        -- simpl.
           destruct (re_split_sentences_from InSeparator [] s) as [|p ps];
             [contradiction|].
           constructor; assumption.
        -- exists []. simpl. now rewrite app_nil_r.
      * destruct (IH (Scanning (is_terminator c)) (c :: cur))
          as (Hne & H1 & H2 & p & Hp).
        { now rewrite ends_with_terminator_rev. }
        repeat split; auto.
        exists (c :: p). rewrite Hp. simpl. now rewrite <- app_assoc.
    + subst cur. simpl. destruct (Ascii.eqb c SP) eqn:E.
      * apply (IH InSeparator [] eq_refl).
      * destruct (IH (Scanning (is_terminator c)) [c])
          as (Hne & H1 & H2 & p & Hp).
        { now rewrite ends_with_terminator_rev. }
        repeat split; auto.
        rewrite Hp. simpl. exact E.
Qed.

Lemma remove_spaces_cons c s :
  remove_spaces (c :: s)
  = if Ascii.eqb c SP then remove_spaces s else c :: remove_spaces s.
Proof. unfold remove_spaces. simpl. now destruct (Ascii.eqb c SP). Qed.

Lemma re_split_from_spaces s :
  forall m cur,
    match m with Scanning _ => True | InSeparator => cur = [] end ->
    remove_spaces (concat (re_split_sentences_from m cur s))
    = remove_spaces (rev cur ++ s).
Proof.
  induction s as [|c s IH]; intros m cur Hm.
  - simpl. now rewrite !app_nil_r.
  - destruct m as [after|].
    + cbn [re_split_sentences_from].
      destruct (Ascii.eqb c SP && after) eqn:E.
      * apply andb_prop in E as [Hc _].
        cbn [concat].
        rewrite !remove_spaces_app, (IH InSeparator [] eq_refl).
        now rewrite remove_spaces_cons, Hc.
      * rewrite (IH (Scanning (is_terminator c)) (c :: cur) I).
        simpl. now rewrite <- app_assoc.
    + subst cur. cbn [re_split_sentences_from rev app].
      destruct (Ascii.eqb c SP) eqn:E.
      * rewrite (IH InSeparator [] eq_refl).
        now rewrite remove_spaces_cons, E.
      * now rewrite (IH (Scanning (is_terminator c)) [c] I).
Qed.

(** X3. What [re.split(r'(?<=[.!?]) +', s)] returns: every piece but the
    last ends with a full stop, an exclamation mark or a question mark, no
    piece after the first starts with a space, and the pieces hold all of
    [s] except spaces. *)
Theorem re_split_sentences_pieces :
  forall s : str,
    Forall (fun p => ends_with_terminator p = true)
      (all_but_last (re_split_sentences s))
    /\ Forall (fun p => starts_with_space p = false)
         (tl (re_split_sentences s))
    /\ remove_spaces (concat (re_split_sentences s)) = remove_spaces s.
Proof.
  intros s. unfold re_split_sentences, all_but_last.
  destruct (re_split_from_shape s (Scanning false) [] eq_refl)
    as (_ & H1 & H2 & _).
  repeat split; auto.
  apply (re_split_from_spaces s (Scanning false) [] I).
Qed.

(** ** The sentence loop *)

Lemma remove_ws_app a b : remove_ws (a ++ b) = remove_ws a ++ remove_ws b.
Proof. apply filter_app. Qed.

Lemma remove_ws_lstrip s : remove_ws (lstrip s) = remove_ws s.
Proof.
  induction s as [|c s IH]; [reflexivity|].
  simpl. destruct (isspace c) eqn:Hc; simpl; rewrite ?Hc; auto.
Qed.

Lemma remove_ws_rstrip s : remove_ws (rstrip s) = remove_ws s.
Proof.
  induction s as [|c s IH]; [reflexivity|].
  simpl. destruct (isspace c) eqn:Hc; simpl.
  - destruct (rstrip s) eqn:E; simpl; rewrite ?Hc; simpl.
    + now rewrite <- IH.
    + now rewrite <- IH.
  - rewrite Hc. simpl. now rewrite IH.
Qed.

Lemma remove_ws_strip s : remove_ws (strip s) = remove_ws s.
Proof. unfold strip. now rewrite remove_ws_rstrip, remove_ws_lstrip. Qed.

Lemma remove_ws_replace_char old new s :
  isspace old = true -> remove_ws new = [] ->
  remove_ws (replace_char old new s) = remove_ws s.
Proof.
  intros Hold Hnew. induction s as [|c s IH]; [reflexivity|].
  unfold replace_char in *. cbn [flat_map].
  rewrite remove_ws_app, IH.
  destruct (Ascii.eqb c old) eqn:E.
  - apply Ascii.eqb_eq in E; subst c. rewrite Hnew. simpl.
    now rewrite Hold.
  - change (c :: s) with ([c] ++ s). now rewrite remove_ws_app.
Qed.

Lemma remove_ws_prepare text : remove_ws (prepare text) = remove_ws text.
Proof.
  unfold prepare. rewrite remove_ws_strip.
  rewrite (remove_ws_replace_char NBSP [SP]) by reflexivity.
  now rewrite (remove_ws_replace_char CR []) by reflexivity.
Qed.

Lemma remove_ws_remove_spaces s : remove_ws (remove_spaces s) = remove_ws s.
Proof.
  induction s as [|c s IH]; [reflexivity|].
  rewrite remove_spaces_cons. destruct (Ascii.eqb c SP) eqn:E.
  - apply Ascii.eqb_eq in E; subst c. simpl. exact IH.
  - simpl. destruct (isspace c); simpl; now rewrite IH.
Qed.

Lemma remove_ws_re_sub_ws b s : remove_ws (re_sub_ws_from b s) = remove_ws s.
Proof.
  revert b; induction s as [|c s IH]; intros b; [reflexivity|].
  simpl. destruct (isspace c) eqn:Hc.
  - destruct b; simpl; apply IH.
  - simpl. rewrite Hc. simpl. now rewrite IH.
Qed.

Lemma remove_ws_clean_text s : remove_ws (clean_text s) = remove_ws s.
Proof.
  unfold clean_text, re_sub_ws. rewrite remove_ws_strip.
  rewrite (remove_ws_replace_char NBSP [SP]) by reflexivity.
  apply remove_ws_re_sub_ws.
Qed.

(** C7. [clean_text] is idempotent, and it collapses whitespace: the
    result is the words of the input (its maximal runs of characters other
    than whitespace, where whitespace includes the non-breaking space), in
    order, joined by single ASCII spaces.  So every whitespace run inside
    the text has become one space and the runs at the ends are gone: the
    only whitespace character left is the space, no two spaces are
    adjacent, neither the first nor the last character is whitespace, and
    the characters other than whitespace are those of the input. *)
Theorem clean_text_idempotent_normal_form :
  forall s : str,
    clean_text (clean_text s) = clean_text s
    /\ clean_text s = join [SP] (split_ws s)
    /\ remove_ws (clean_text s) = remove_ws s
    /\ (forall c, In c (clean_text s) -> isspace c = true -> c = SP)
    /\ (forall l1 l2, clean_text s <> l1 ++ SP :: SP :: l2)
    /\ (forall c l, clean_text s = c :: l -> isspace c = false)
    /\ (forall l c, clean_text s = l ++ [c] -> isspace c = false).
Proof.
  intros s. pose proof (clean_text_single_spaced s) as H.
  split; [apply clean_text_idempotent|].
  split.
  { rewrite <- split_ws_clean_text. symmetry.
    apply (join_split_normal (clean_text s) []).
    - exact H.
    - apply clean_text_rstrip. }
  split; [apply remove_ws_clean_text|].
  split; [intros c; apply (single_spaced_only_spaces _ _ c H)|].
  split.
  { intros l1 l2 E. rewrite E, single_spaced_no_double in H. discriminate. }
  split.
  - intros c l E. rewrite E in H. simpl in H.
    destruct (isspace c); auto. rewrite andb_false_r in H. discriminate.
  - intros l c E. unfold clean_text, strip in E.
    eapply rstrip_last; eauto.
Qed.

Section SentenceLoop.

Variable tokenize : str -> list str.

(** What the sentence loop still holds after some sentences: the blocks
    already flushed and the buffer. *)
Lemma accumulate_step_keeps_text st sentence :
  remove_ws (concat (snd (accumulate_step tokenize st sentence))
             ++ fst (accumulate_step tokenize st sentence))
  = remove_ws (concat (snd st) ++ fst st ++ sentence).
Proof.
  destruct st as [buffer blocks]. unfold accumulate_step.
  destruct (length
              (tokenize
                 (if is_nil buffer then sentence
                  else buffer ++ [SP] ++ sentence)) <=? MAX_TOKENS).
  - cbn [fst snd]. destruct buffer as [|b buffer]; cbn [is_nil].
    + reflexivity.
    + rewrite !remove_ws_app. reflexivity.
  - cbn [fst snd]. destruct buffer as [|b buffer]; cbn [is_nil].
    + reflexivity.
    + rewrite concat_app. cbn [concat]. rewrite app_nil_r.
      rewrite !remove_ws_app, remove_ws_strip. now rewrite <- app_assoc.
Qed.

Lemma accumulate_loop_keeps_text sentences st :
  remove_ws (concat (snd (fold_left (accumulate_step tokenize) sentences st))
             ++ fst (fold_left (accumulate_step tokenize) sentences st))
  = remove_ws (concat (snd st) ++ fst st ++ concat sentences).
Proof.
  revert st; induction sentences as [|s sentences IH]; intros st.
  - simpl. now rewrite app_nil_r.
  - cbn [fold_left concat]. rewrite IH.
    rewrite !remove_ws_app.
    pose proof (accumulate_step_keeps_text st s) as H.
    rewrite !remove_ws_app in H.
    rewrite app_assoc, H. now rewrite <- !app_assoc.
Qed.

Lemma accumulate_blocks_keeps_text sentences :
  remove_ws (concat (accumulate_blocks tokenize sentences))
  = remove_ws (concat sentences).
Proof.
  unfold accumulate_blocks.
  pose proof (accumulate_loop_keeps_text sentences ([], [])) as H.
  destruct (fold_left (accumulate_step tokenize) sentences ([], []))
    as [buffer blocks].
  cbn [fst snd concat app] in H. rewrite <- H.
  destruct buffer as [|b buffer]; cbn [is_nil].
  - now rewrite app_nil_r.
  - rewrite concat_app. cbn [concat]. rewrite app_nil_r.
    now rewrite !remove_ws_app, remove_ws_strip.
Qed.

(** X4. The first stage of [split_into_clauses] loses no text: whatever
    the oracle answers, the blocks built from the sentences of the input
    hold, in order, every character of the input that is not
    whitespace. *)
Theorem blocks_keep_the_text :
  forall text : str,
    remove_ws
      (concat
         (accumulate_blocks tokenize (re_split_sentences (prepare text))))
    = remove_ws text.
Proof.
  intros text. rewrite accumulate_blocks_keeps_text.
  rewrite <- remove_ws_remove_spaces.
  unfold re_split_sentences.
  rewrite (re_split_from_spaces (prepare text) (Scanning false) [] I).
  cbn [rev app].
  now rewrite remove_ws_remove_spaces, remove_ws_prepare.
Qed.



End SentenceLoop.


(** ** The header loop and the header pattern *)

Lemma header_loop_count blocks :
  forall h,
    length (snd (fold_left header_step blocks (h, [])))
    = length (filter (fun b => negb (header_match (strip b))) blocks).
Proof.
  induction blocks as [|b blocks IH]; intros h; [reflexivity|].
  cbn [filter]. destruct (header_match (strip b)) eqn:Hb; cbn [negb].
  - rewrite (header_loop_header h b blocks Hb). apply IH.
  - rewrite (header_loop_body h b blocks Hb). cbn [length].
    now rewrite IH.
Qed.

Lemma header_loop_no_header blocks :
  Forall (fun b => header_match (strip b) = false) blocks ->
  combine_blocks blocks = map strip blocks.
Proof.
  induction 1 as [|b blocks Hb _ IH]; [reflexivity|].
  rewrite (combine_body_first b blocks Hb). cbn [map].
  now rewrite IH.
Qed.

(** X6. The header loop makes exactly one candidate for each block that
    does not match the header pattern, and none for the others; without
    any header block the candidates are the trimmed blocks. *)
Theorem combine_blocks_count :
  forall blocks : list str,
    length (combine_blocks blocks)
    = length (filter (fun b => negb (header_match (strip b))) blocks)
    /\ (Forall (fun b => header_match (strip b) = false) blocks ->
        combine_blocks blocks = map strip blocks).
Proof.
  intros blocks. split.
  - apply header_loop_count.
  - apply header_loop_no_header.
Qed.

(** A match stays a match when the text goes on, as long as the
    continuation accepts the longer rest. *)
Lemma re_rep_zero cls hi (k : str -> bool) s :
  k s = true -> re_rep cls 0 hi k s = true.
Proof.
  intros Hk. destruct s as [|c s]; simpl.
  - exact Hk.
  - destruct (cls c && allows_more hi); rewrite Hk; simpl;
      auto using orb_true_r.
Qed.

Lemma re_rep_extend cls (k k' : str -> bool) rest :
  (forall s, k s = true -> k' (s ++ rest) = true) ->
  forall s lo hi,
    re_rep cls lo hi k s = true -> re_rep cls lo hi k' (s ++ rest) = true.
Proof.
  intros Hk. induction s as [|c s IH]; intros lo hi H.
  - simpl in H. apply andb_prop in H as [Hlo H].
    apply Nat.eqb_eq in Hlo; subst lo.
    apply re_rep_zero. now apply (Hk []).
  - simpl in H |- *. destruct (cls c && allows_more hi).
    + apply orb_prop in H as [H|H].
      * rewrite (IH _ _ H). reflexivity.
      * apply andb_prop in H as [Hlo H]. rewrite Hlo.
        pose proof (Hk (c :: s) H) as Hk'. simpl in Hk'.
        rewrite Hk'. simpl. apply orb_true_r.
    + apply andb_prop in H as [Hlo H]. rewrite Hlo.
      pose proof (Hk (c :: s) H) as Hk'. simpl in Hk'.
      now rewrite Hk'.
Qed.

Lemma re_lit_extend l (k k' : str -> bool) rest :
  (forall s, k s = true -> k' (s ++ rest) = true) ->
  forall s, re_lit l k s = true -> re_lit l k' (s ++ rest) = true.
Proof.
  intros Hk. induction l as [|a l IH]; intros s H.
  - simpl in H |- *. now apply Hk.
  - destruct s as [|b s]; [discriminate|].
    simpl in H |- *. apply andb_prop in H as [Hab H].
    rewrite Hab. now apply IH.
Qed.

(** X7. The header test is a test on the beginning of a block: a text
    that matches the header pattern still matches it with anything
    appended, so a block that starts with a header line is a header as a
    whole. *)
Theorem header_match_prefix :
  forall header rest : str,
    header_match header = true -> header_match (header ++ rest) = true.
Proof.
  intros header rest H. unfold header_match, header_pattern, re_alt in *.
  apply orb_prop in H as [H|H]; apply orb_true_iff; [left|right].
  - revert H. apply re_lit_extend. intros s.
    apply re_rep_extend. intros s'.
    apply re_rep_extend. reflexivity.
  - revert H. apply re_rep_extend. intros s.
    apply re_rep_extend. intros s'.
    apply re_rep_extend. reflexivity.
Qed.

(** A witness of X7: a numbered clause is a header from its first
    words on. *)
Lemma header_match_prefix_witness :
  header_match (lit "4.2 Exclusions") = true
  /\ header_match numbered_clause = true.
Proof.
  split; [reflexivity|].
  apply (header_match_prefix (lit "4.2 Exclusions")
           (lit " apply to every loss caused by war or by nuclear risks")).
  reflexivity.
Defined.

Section MoreSegmenterProperties.

Variable tokenize : str -> list str.
Variable convert_tokens_to_string : list str -> str.

(** X8. A text that is a single sentence and begins like a header gives
    no record at all: its only block is taken for a header, and a header
    with no block after it is dropped. *)
Theorem single_header_sentence_dropped :
  forall text : str,
    has_sentence_boundary (prepare text) = false ->
    header_match (prepare text) = true ->
    split_into_clauses tokenize convert_tokens_to_string text = [].
Proof.
  intros text Hb Hh. unfold split_into_clauses.
  rewrite (single_sentence_candidates tokenize text (prepare text))
    by now apply re_split_single.
  assert (Hs : strip (prepare text) = prepare text)
    by apply strip_idempotent.
  rewrite (header_match_nonempty _ Hh), combine_blocks_single.
  now rewrite !Hs, Hh.
Qed.

(** X10. When no candidate block has more than 512 tokens, the record
    texts are the normalized candidate blocks that pass the filters, in
    the order of the candidates. *)
Theorem records_without_oversized_block :
  forall text : str,
    Forall (fun b => length (tokenize (clean_text b)) <= MAX_TOKENS)
      (candidate_blocks tokenize text) ->
    map clause (split_into_clauses tokenize convert_tokens_to_string text)
    = filter (fun c => negb (is_noise c))
        (map clean_text (candidate_blocks tokenize text)).
Proof.
  intros text H. rewrite split_into_clauses_clauses.
  induction H as [|b blocks Hb _ IH]; [reflexivity|].
  cbn [flat_map map filter]. rewrite IH. unfold block_texts.
  destruct (is_noise (clean_text b)); [reflexivity|].
  apply Nat.ltb_ge in Hb. now rewrite Hb.
Qed.

(** X11. With an oracle for which the text of a chunk never has more
    tokens than the limit, every record meets the token budget: the token
    count of its normalized text is at most 512. *)
Theorem token_budget_with_stable_oracle :
  chunk_stable tokenize convert_tokens_to_string ->
  forall text : str,
    Forall
      (fun r => length (tokenize (clean_text (clause r))) <= MAX_TOKENS)
      (split_into_clauses tokenize convert_tokens_to_string text).
Proof.
  intros Hstable text.
  eapply Forall_impl; [|apply records_provenance].
  intros r [Hd|Hf].
  - destruct Hd as (block & _ & _ & Hlen & ->).
    now rewrite clean_text_idempotent.
  - destruct Hf as (block & i & _ & _ & _ & _ & ->).
    rewrite clean_text_idempotent. apply Hstable.
Qed.

End MoreSegmenterProperties.

(** A witness of X8: a numbered clause of one sentence. *)
Lemma single_header_sentence_witness :
  has_sentence_boundary (prepare numbered_clause) = false
  /\ header_match (prepare numbered_clause) = true
  /\ split_into_clauses WordPiece.tokenize
       WordPiece.convert_tokens_to_string numbered_clause = [].
Proof.
  split; [reflexivity|]. split; [reflexivity|].
  apply (single_header_sentence_dropped
           WordPiece.tokenize WordPiece.convert_tokens_to_string);
    reflexivity.
Defined.

(** A witness of X10: three short sentences make one block, and the block
    one record. *)
Lemma records_without_oversized_block_witness :
  candidate_blocks WordPiece.tokenize three_sentences
  = [lit "The insurer pays the sum insured. Claims are settled in thirty days! Is that all?"]
  /\ map clause
       (split_into_clauses WordPiece.tokenize
          WordPiece.convert_tokens_to_string three_sentences)
     = [lit "The insurer pays the sum insured. Claims are settled in thirty days! Is that all?"].
Proof.
  assert (E : candidate_blocks WordPiece.tokenize three_sentences
              = [lit "The insurer pays the sum insured. Claims are settled in thirty days! Is that all?"])
    by (vm_compute; reflexivity).
  split; [exact E|].
  rewrite (records_without_oversized_block
             WordPiece.tokenize WordPiece.convert_tokens_to_string).
  - rewrite E. vm_compute. reflexivity.
  - rewrite E. constructor; [|constructor].
    apply Nat.leb_le. vm_compute. reflexivity.
Defined.

(** The oracle with one token per character is stable: a chunk text has
    as many tokens as characters, and normalizing the characters of a
    slice does not add any. *)
Lemma concat_singletons (s : str) : concat (map (fun c => [c]) s) = s.
Proof. induction s as [|c s IH]; simpl; now rewrite ?IH. Qed.

Lemma CharOracle_chunk_stable :
  chunk_stable CharOracle.tokenize CharOracle.convert_tokens_to_string.
Proof.
  intros s i. unfold CharOracle.tokenize, CharOracle.convert_tokens_to_string.
  rewrite length_map.
  rewrite slice_width, skipn_map, firstn_map, concat_singletons.
  pose proof (clean_text_length (firstn MAX_TOKENS (skipn i s))) as H.
  rewrite length_firstn in H. lia.
Qed.

(** A witness of X11: with one token per character a text of 600
    characters is cut in two, and both records are within the limit. *)
Lemma token_budget_with_stable_oracle_witness :
  length
    (split_into_clauses CharOracle.tokenize
       CharOracle.convert_tokens_to_string long_word_text) = 2
  /\ Forall
       (fun r =>
          length (CharOracle.tokenize (clean_text (clause r)))
          <= MAX_TOKENS)
       (split_into_clauses CharOracle.tokenize
          CharOracle.convert_tokens_to_string long_word_text).
Proof.
  split; [vm_compute; reflexivity|].
  apply (token_budget_with_stable_oracle
           CharOracle.tokenize CharOracle.convert_tokens_to_string).
  exact CharOracle_chunk_stable.
Defined.

(** ** The force-split loop *)

Lemma slices_concat {A} n :
  forall m (l : list A),
    length l <= m * n ->
    concat (map (fun i => slice l i (i + n))
              (map (fun k => k * n) (seq 0 m))) = l.
Proof.
  induction m as [|m IH]; intros l Hl.
  - simpl in Hl. destruct l; [reflexivity|simpl in Hl; lia].
  - cbn [seq map concat]. rewrite <- seq_shift, !map_map.
    change (0 * n) with 0.
    rewrite (slice_width l 0 n). cbn [skipn].
    rewrite (map_ext
               (fun k => slice l (S k * n) (S k * n + n))
               (fun k => slice (skipn n l) (k * n) (k * n + n))).
    + rewrite <- (map_map (fun k => k * n)
                    (fun i => slice (skipn n l) i (i + n))).
      rewrite IH by (rewrite length_skipn; lia).
      apply firstn_skipn.
    + intros k. rewrite !slice_width, skipn_skipn.
      now replace (k * n + n) with (S k * n) by lia.
Qed.

Lemma py_range_covers stop step :
  0 < step -> stop <= (stop + step - 1) / step * step.
Proof.
  intros Hs.
  pose proof (Nat.div_mod_eq (stop + step - 1) step) as E.
  pose proof (Nat.mod_upper_bound (stop + step - 1) step) as B.
  nia.
Qed.

Lemma py_range_starts stop step i :
  0 < step -> In i (py_range stop step) -> i < stop.
Proof.
  intros Hs Hi. unfold py_range in Hi.
  apply in_map_iff in Hi as (k & <- & Hk). apply in_seq in Hk.
  pose proof (Nat.div_mod_eq (stop + step - 1) step) as E.
  nia.
Qed.

(** X9. The force-split loop cuts the token sequence into consecutive
    slices and appends one record for each: the slices are not empty, hold
    at most 512 tokens each, and put end to end give the token sequence
    back, so no token is lost or repeated. *)
Theorem force_split_partitions_tokens :
  forall (convert_tokens_to_string : list str -> str)
         (tokens : list str) (final : list clause_record),
    map clause (emit_chunks convert_tokens_to_string tokens final)
    = map clause final
      ++ map (fun i =>
                clean_text
                  (convert_tokens_to_string
                     (slice tokens i (i + MAX_TOKENS))))
           (py_range (length tokens) MAX_TOKENS)
    /\ concat
         (map (fun i => slice tokens i (i + MAX_TOKENS))
            (py_range (length tokens) MAX_TOKENS)) = tokens
    /\ Forall
         (fun i =>
            0 < length (slice tokens i (i + MAX_TOKENS)) <= MAX_TOKENS)
         (py_range (length tokens) MAX_TOKENS).
Proof.
  intros detok tokens final.
  assert (Hmax : 0 < MAX_TOKENS) by (apply Nat.ltb_lt; reflexivity).
  split; [|split].
  - unfold emit_chunks.
    rewrite (fold_left_map_arg append_record
               (fun i =>
                  clean_text (detok (slice tokens i (i + MAX_TOKENS))))).
    apply append_records_clauses.
  - apply slices_concat. now apply py_range_covers.
  - apply Forall_forall. intros i Hi.
    apply (py_range_starts _ _ _ Hmax) in Hi.
    rewrite slice_width, length_firstn, length_skipn. lia.
Qed.

(** ** The entry point of [extract_clauses.py] *)

Section EntryPoint.

Variable bytes : Type.
Variable pdf_page_texts : bytes -> list str.
Variable docx_paragraph_texts : bytes -> list str.
Variable extract_text_from_txt : bytes -> str.
Variable extract_text_from_eml : bytes -> str.
Variable guess_type : str -> option str.
Variable tokenize : str -> list str.
Variable convert_tokens_to_string : list str -> str.

(** X12. When neither the URL nor the response gives a type (no guess
    from the name, and no or an empty [Content-Type]), the bytes are read
    as a PDF, also for a URL that ends in [.txt] or [.eml]: the two
    tests on the end of the URL are made only once some type is known. *)
Theorem extract_clauses_from_url_pdf_fallback :
  forall (http_get : str -> bytes * option str) (url : str),
    truthy (guess_type url) = false ->
    truthy (snd (http_get url)) = false ->
    Extractor.extract_clauses_from_url bytes pdf_page_texts
      docx_paragraph_texts extract_text_from_txt extract_text_from_eml
      http_get guess_type tokenize convert_tokens_to_string url
    = split_into_clauses tokenize convert_tokens_to_string
        (Extractor.extract_text_from_pdf bytes pdf_page_texts
           (fst (http_get url))).
Proof.
  intros http_get url Hg Hc.
  unfold Extractor.extract_clauses_from_url, Extractor.raw_text_from_url.
  rewrite Hg, Hc. cbn [negb andb].
  destruct (guess_type url) as [[|c m]|]; try reflexivity.
  discriminate Hg.
Qed.

(** X13. When the type can be guessed from the URL, the header
    [Content-Type] of the response plays no part: two responses with the
    same content give the same records, whatever their headers. *)
Theorem extract_clauses_from_url_guess_wins :
  forall (http_get1 http_get2 : str -> bytes * option str) (url : str),
    truthy (guess_type url) = true ->
    fst (http_get1 url) = fst (http_get2 url) ->
    Extractor.extract_clauses_from_url bytes pdf_page_texts
      docx_paragraph_texts extract_text_from_txt extract_text_from_eml
      http_get1 guess_type tokenize convert_tokens_to_string url
    = Extractor.extract_clauses_from_url bytes pdf_page_texts
        docx_paragraph_texts extract_text_from_txt extract_text_from_eml
        http_get2 guess_type tokenize convert_tokens_to_string url.
Proof.
  intros http_get1 http_get2 url Hg Hb.
  unfold Extractor.extract_clauses_from_url, Extractor.raw_text_from_url.
  rewrite Hg, Hb. reflexivity.
Qed.

End EntryPoint.

(** A witness of X12: a URL that ends in [.txt], no guess and no header;
    the body is read by the PDF reader, here one that gives the body as
    its single page. *)
Lemma extract_clauses_from_url_pdf_fallback_witness :
  Extractor.extract_clauses_from_url str
    (fun body => [body]) (fun _ => []) (fun _ => lit "as text")
    (fun _ => lit "as mail")
    (fixed_response (lit "The insurer pays the sum insured.") None)
    (fun _ => None)
    WordPiece.tokenize WordPiece.convert_tokens_to_string
    (lit "http://host/policy.txt")
  = [ {| clause := lit "The insurer pays the sum insured.";
         id := lit "clause_1" |} ].
Proof.
  rewrite (extract_clauses_from_url_pdf_fallback str
             (fun body => [body]) (fun _ => []) (fun _ => lit "as text")
             (fun _ => lit "as mail") (fun _ => None)
             WordPiece.tokenize WordPiece.convert_tokens_to_string
             (fixed_response (lit "The insurer pays the sum insured.") None)
             (lit "http://host/policy.txt") eq_refl eq_refl).
  vm_compute. reflexivity.
Defined.

(** A witness of X13: the name says plain text, one response says PDF and
    the other says nothing. *)
Lemma extract_clauses_from_url_guess_wins_witness :
  Extractor.extract_clauses_from_url str
    (fun _ => [lit "read as a PDF file, which it is not"])
    (fun _ => []) (fun body => body) (fun _ => lit "as mail")
    (fixed_response (lit "The insurer pays the sum insured.")
       (Some (lit "application/pdf")))
    (fun _ => Some (lit "text/plain"))
    WordPiece.tokenize WordPiece.convert_tokens_to_string
    (lit "http://host/policy.txt")
  = Extractor.extract_clauses_from_url str
      (fun _ => [lit "read as a PDF file, which it is not"])
      (fun _ => []) (fun body => body) (fun _ => lit "as mail")
      (fixed_response (lit "The insurer pays the sum insured.") None)
      (fun _ => Some (lit "text/plain"))
      WordPiece.tokenize WordPiece.convert_tokens_to_string
      (lit "http://host/policy.txt").
Proof.
  apply extract_clauses_from_url_guess_wins; reflexivity.
Defined.

(** ** Lines: [split] after [join], and the cache file *)

Lemma split_on_from_app sep p cur rest :
  ~ In sep p ->
  split_on_from sep cur (p ++ rest) = split_on_from sep (rev p ++ cur) rest.
Proof.
  revert cur; induction p as [|c p IH]; intros cur Hp; [reflexivity|].
  simpl. destruct (Ascii.eqb c sep) eqn:E.
  - apply Ascii.eqb_eq in E. subst c. exfalso. apply Hp. now left.
  - rewrite IH by (intros H; apply Hp; now right).
    now rewrite <- app_assoc.
Qed.

Lemma split_on_piece sep p :
  ~ In sep p -> split_on sep p = [p].
Proof.
  intros Hp. unfold split_on.
  rewrite <- (app_nil_r p) at 1.
  rewrite (split_on_from_app sep p [] [] Hp). simpl.
  now rewrite app_nil_r, rev_involutive.
Qed.

Lemma split_on_piece_then sep p rest :
  ~ In sep p -> split_on sep (p ++ sep :: rest) = p :: split_on sep rest.
Proof.
  intros Hp. unfold split_on.
  rewrite (split_on_from_app sep p [] _ Hp). simpl.
  now rewrite Ascii.eqb_refl, app_nil_r, rev_involutive.
Qed.

Lemma split_on_join sep parts :
  parts <> [] ->
  Forall (fun p => ~ In sep p) parts ->
  split_on sep (join [sep] parts) = parts.
Proof.
  intros Hne H. induction H as [|p parts Hp H IH]; [contradiction|].
  destruct parts as [|q parts].
  - simpl. now apply split_on_piece.
  - rewrite join_cons by discriminate. cbn [app].
    rewrite (split_on_piece_then sep p _ Hp).
    rewrite IH by discriminate. reflexivity.
Qed.

Lemma split_on_from_no_sep sep s :
  forall cur,
    ~ In sep cur ->
    Forall (fun p => ~ In sep p) (split_on_from sep cur s).
Proof.
  induction s as [|c s IH]; intros cur Hcur; simpl.
  - constructor; [|constructor]. now rewrite <- in_rev.
  - destruct (Ascii.eqb c sep) eqn:E.
    + constructor; [now rewrite <- in_rev|]. apply IH. intros [].
    + apply IH. intros [->|H]; [|contradiction].
      now rewrite Ascii.eqb_refl in E.
Qed.

Lemma cache_content_concat clauses :
  cache_content clauses = concat (map (fun c => c ++ [LF]) clauses).
Proof.
  unfold cache_content.
  assert (H : forall written,
             fold_left (fun w c => w ++ (c ++ [LF])) clauses written
             = written ++ concat (map (fun c => c ++ [LF]) clauses)).
  { induction clauses as [|c clauses IH]; intros written; simpl.
    - now rewrite app_nil_r.
    - rewrite IH. now rewrite <- !app_assoc. }
  apply (H []).
Qed.

Lemma split_on_cache_content clauses :
  Forall (fun c => ~ In LF c) clauses ->
  split_on LF (cache_content clauses) = clauses ++ [[]].
Proof.
  intros H. rewrite cache_content_concat.
  induction H as [|c clauses Hc H IH]; [reflexivity|].
  cbn [map concat]. rewrite <- app_assoc. cbn [app].
  rewrite (split_on_piece_then LF c _ Hc), IH. reflexivity.
Qed.

(** X14. [extract_text_from_docx] gives one line for each paragraph that
    is not blank: when no paragraph text holds a newline and at least one
    paragraph is not blank, the lines of the result are exactly the
    non-blank paragraphs, in order. *)
Theorem extract_text_from_docx_lines :
  forall (bytes : Type) (docx_paragraph_texts : bytes -> list str)
         (file_bytes : bytes),
    Forall (fun text => ~ In LF text) (docx_paragraph_texts file_bytes) ->
    Exists (fun text => strip text <> [])
      (docx_paragraph_texts file_bytes) ->
    split_on LF
      (Extractor.extract_text_from_docx bytes docx_paragraph_texts
         file_bytes)
    = filter (fun text => negb (is_nil (strip text)))
        (docx_paragraph_texts file_bytes).
Proof.
  intros bytes paragraphs file_bytes Hlf Hex.
  unfold Extractor.extract_text_from_docx.
  apply split_on_join.
  - apply Exists_exists in Hex as (p & Hp & Hne).
    intros E.
    assert (Hin : In p (filter (fun text => negb (is_nil (strip text)))
                          (paragraphs file_bytes))).
    { apply filter_In. split; [exact Hp|]. now destruct (strip p). }
    rewrite E in Hin. contradiction.
  - apply Forall_forall. intros p Hp. apply filter_In in Hp as [Hp _].
    now apply (proj1 (Forall_forall _ _) Hlf).
Qed.

(** A witness of X14: three paragraphs, the second blank. *)
Lemma extract_text_from_docx_lines_witness :
  split_on LF
    (Extractor.extract_text_from_docx unit
       (fun _ => [lit "Cover"; lit "  "; lit "The insurer pays."]) tt)
  = [lit "Cover"; lit "The insurer pays."].
Proof.
  rewrite (extract_text_from_docx_lines unit
             (fun _ => [lit "Cover"; lit "  "; lit "The insurer pays."]) tt).
  - reflexivity.
  - repeat constructor; intros H; vm_compute in H; intuition discriminate.
  - apply Exists_cons_hd. discriminate.
Defined.

(** ** [my_utils]: the line filter and the clause cache *)

Lemma In_lstrip c s : In c (lstrip s) -> In c s.
Proof.
  induction s as [|a s IH]; simpl; auto.
  destruct (isspace a); simpl; auto.
Qed.

Lemma In_rstrip c s : In c (rstrip s) -> In c s.
Proof.
  induction s as [|a s IH]; simpl; auto.
  destruct (isspace a && is_nil (rstrip s)); simpl; [contradiction|].
  intros [H|H]; auto.
Qed.

Lemma In_strip c s : In c (strip s) -> In c s.
Proof. intros H. apply In_lstrip, In_rstrip. exact H. Qed.

Lemma line_filter_output fetch url :
  Forall (fun c => 50 < length c /\ strip c = c)
    (extract_clauses_from_url fetch url).
Proof.
  unfold extract_clauses_from_url. apply Forall_forall. intros c Hc.
  apply in_map_iff in Hc as (line & <- & Hline).
  apply filter_In in Hline as [_ Hlen].
  split; [now apply Nat.ltb_lt|apply strip_idempotent].
Qed.

Lemma extract_clauses_from_url_no_newline fetch url :
  Forall (fun c => ~ In LF c) (extract_clauses_from_url fetch url).
Proof.
  unfold extract_clauses_from_url. apply Forall_forall. intros c Hc.
  apply in_map_iff in Hc as (line & <- & Hline).
  apply filter_In in Hline as [Hline _].
  intros H. apply In_strip in H.
  pose proof (split_on_from_no_sep LF (fetch url) [] (fun H => H)) as Hall.
  apply (proj1 (Forall_forall _ _) Hall line Hline H).
Qed.

Lemma line_filter_fixpoint clauses :
  Forall (fun c => 50 < length c /\ strip c = c) clauses ->
  map strip
    (filter (fun line => 50 <? length (strip line)) (clauses ++ [[]]))
  = clauses.
Proof.
  induction 1 as [|c clauses [Hlen Hstrip] _ IH]; [reflexivity|].
  cbn [app filter]. rewrite Hstrip.
  apply Nat.ltb_lt in Hlen. rewrite Hlen. cbn [map].
  now rewrite Hstrip, IH.
Qed.

(** X15. The clause cache and the line filter fit together: the clauses
    that [my_utils.extract_clauses_from_url] returns hold no newline, so
    the file that [save_clause_cache] writes for them has exactly one
    clause on each line, and the line filter applied to that file gives
    the same clauses again. *)
Theorem cached_clauses_round_trip :
  forall (fetch_cleaned_text : str -> str) (url : str)
         (fs : file_system) (hash_key : str),
    option_map (split_on LF)
      (save_clause_cache fs
         (extract_clauses_from_url fetch_cleaned_text url) hash_key
         (cache_path hash_key))
    = Some (extract_clauses_from_url fetch_cleaned_text url ++ [[]])
    /\ extract_clauses_from_url
         (fun _ =>
            cache_content (extract_clauses_from_url fetch_cleaned_text url))
         url
       = extract_clauses_from_url fetch_cleaned_text url.
Proof.
  intros fetch url fs key.
  pose proof (extract_clauses_from_url_no_newline fetch url) as Hlf.
  pose proof (line_filter_output fetch url) as Hok.
  split.
  - unfold save_clause_cache, write_file.
    destruct (list_eq_dec ascii_dec (cache_path key) (cache_path key))
      as [_|Hne]; [|contradiction].
    cbn [option_map]. now rewrite split_on_cache_content.
  - unfold extract_clauses_from_url at 1.
    rewrite (split_on_cache_content _ Hlf).
    now apply line_filter_fixpoint.
Qed.

(** ** [my_utils]: the keyword test *)

Lemma lower_char_idempotent c : lower_char (lower_char c) = lower_char c.
Proof.
  destruct c as [[|] [|] [|] [|] [|] [|] [|] [|]]; reflexivity.
Qed.

Lemma lower_idempotent s : lower (lower s) = lower s.
Proof.
  unfold lower. rewrite map_map. apply map_ext, lower_char_idempotent.
Qed.

Lemma starts_with_app k s post :
  starts_with k s = true -> starts_with k (s ++ post) = true.
Proof.
  revert s; induction k as [|a k IH]; intros s H; [reflexivity|].
  destruct s as [|b s]; [discriminate|].
  simpl in H |- *. apply andb_prop in H as [Hab H].
  rewrite Hab. now apply IH.
Qed.

Lemma contains_app_r k s post :
  contains k s = true -> contains k (s ++ post) = true.
Proof.
  induction s as [|c s IH]; intros H.
  - simpl in H. rewrite orb_false_r in H.
    destruct k; [|discriminate]. now destruct post.
  - simpl in H |- *. apply orb_prop in H as [H|H].
    + pose proof (starts_with_app _ _ post H) as H'.
      rewrite <- app_comm_cons in H'. now rewrite H'.
    + rewrite (IH H). apply orb_true_r.
Qed.

Lemma contains_app_l k pre s :
  contains k s = true -> contains k (pre ++ s) = true.
Proof.
  intros H. induction pre as [|c pre IH]; [exact H|].
  simpl. rewrite IH. apply orb_true_r.
Qed.

(** X17. The keyword test does not look at case, and it looks for the
    keywords anywhere, also inside longer words: the answer for a text is
    the answer for its lower-case form, and a text that passes still
    passes with anything put before and after it. *)
Theorem is_probably_insurance_policy_case_and_context :
  forall text : str,
    is_probably_insurance_policy (lower text)
    = is_probably_insurance_policy text
    /\ (is_probably_insurance_policy text = true ->
        forall before after : str,
          is_probably_insurance_policy (before ++ text ++ after) = true).
Proof.
  intros text. unfold is_probably_insurance_policy. split.
  - now rewrite lower_idempotent.
  - intros H before after.
    apply existsb_exists in H as (k & Hk & H).
    apply existsb_exists. exists k. split; [exact Hk|].
    unfold lower in *. rewrite !map_app.
    now apply contains_app_l, contains_app_r.
Qed.

(** The word [DISCLAIMER] holds the keyword [claim]. *)
Example is_probably_insurance_policy_inside_word :
  is_probably_insurance_policy keyword_example = true.
Proof. reflexivity. Qed.

(** ** Normalized records and blank documents *)

Lemma lstrip_blank s : forallb isspace s = true -> lstrip s = [].
Proof.
  induction s as [|c s IH]; [reflexivity|].
  simpl. intros H. apply andb_prop in H as [Hc H].
  rewrite Hc. now apply IH.
Qed.

Lemma replace_char_blank old new s :
  forallb isspace new = true ->
  forallb isspace s = true ->
  forallb isspace (replace_char old new s) = true.
Proof.
  intros Hnew. induction s as [|c s IH]; [reflexivity|].
  simpl. intros H. apply andb_prop in H as [Hc H].
  unfold replace_char in *. cbn [flat_map].
  rewrite forallb_app, (IH H), andb_true_r.
  destruct (Ascii.eqb c old); [exact Hnew|].
  simpl. now rewrite Hc.
Qed.

Lemma prepare_blank text : forallb isspace text = true -> prepare text = [].
Proof.
  intros H. unfold prepare, strip.
  rewrite lstrip_blank; [reflexivity|].
  apply replace_char_blank; [reflexivity|].
  now apply replace_char_blank.
Qed.

Section NormalizedRecords.

Variable tokenize : str -> list str.
Variable convert_tokens_to_string : list str -> str.

(** X18. Every record text is normalized, in both branches: normalizing
    it again changes nothing, so it is single-spaced and has no
    whitespace at either end. *)
Theorem records_are_normalized :
  forall text : str,
    Forall
      (fun r =>
         clean_text (clause r) = clause r
         /\ single_spaced_from true (clause r) = true)
      (split_into_clauses tokenize convert_tokens_to_string text).
Proof.
  intros text.
  eapply Forall_impl;
    [|apply (records_provenance tokenize convert_tokens_to_string)].
  intros r [Hd|Hf].
  - destruct Hd as (block & _ & _ & _ & ->).
    split; [apply clean_text_idempotent|apply clean_text_single_spaced].
  - destruct Hf as (block & i & _ & _ & _ & _ & ->).
    split; [apply clean_text_idempotent|apply clean_text_single_spaced].
Qed.

(** X19. A text made of whitespace only, like the empty text, gives no
    record: after the trimming at the start nothing is left, and no block
    is built. *)
Theorem blank_text_yields_nothing :
  forall text : str,
    forallb isspace text = true ->
    split_into_clauses tokenize convert_tokens_to_string text = [].
Proof.
  intros text H. unfold split_into_clauses.
  rewrite (single_sentence_candidates tokenize text []).
  - reflexivity.
  - now rewrite (prepare_blank text H).
Qed.

End NormalizedRecords.

(** A witness of X19. *)
Lemma blank_text_yields_nothing_witness :
  length blank_text = 7
  /\ split_into_clauses WordPiece.tokenize
       WordPiece.convert_tokens_to_string blank_text = [].
Proof.
  split; [reflexivity|].
  apply (blank_text_yields_nothing
           WordPiece.tokenize WordPiece.convert_tokens_to_string).
  reflexivity.
Defined.

(** * Upper-case headings *)

(** ** Measures of the text through the loops *)






Section Measure.

(** A measure of a text that trimming does not raise, that is at most
    additive when two texts are joined by a space or a newline, and that
    does not lose when a text is cut at a space. *)
Variable mu : str -> nat.
Hypothesis mu_strip : forall s, mu (strip s) <= mu s.
Hypothesis mu_join :
  forall a w b, w = SP \/ w = LF -> mu (a ++ w :: b) <= mu a + mu b.
Hypothesis mu_split : forall a b, mu a + mu b <= mu (a ++ SP :: b).
Hypothesis mu_skip : forall b, mu b <= mu (SP :: b).

Variable tokenize : str -> list str.








End Measure.

(** ** The two measures: words and characters *)









Lemma isspace_LF : isspace LF = true.
Proof. reflexivity. Qed.

Section CandidateBounds.

Variable tokenize : str -> list str.



End CandidateBounds.

(** ** The characters of the blocks *)



Section CharactersKept.

(** A property of characters that the space and the newline have. *)
Variable Q : ascii -> Prop.
Hypothesis Q_SP : Q SP.
Hypothesis Q_LF : Q LF.

Variable tokenize : str -> list str.








End CharactersKept.

(** ** Upper-case letters in the blocks *)





Section CapitalsKept.

Variable tokenize : str -> list str.



End CapitalsKept.

(** ** The heading filter on the candidates of an upper-case text *)

Section UpperCaseHeadings.

Variable tokenize : str -> list str.
Variable convert_tokens_to_string : list str -> str.



End UpperCaseHeadings.


